(** * The path animator of farcaster-grid

    A shallow embedding of [src/components/GridCanvas.tsx] and of its
    near-duplicate [src/components/PachinkoCanvas.tsx]: the gradient
    interpolation, the random-walk simulation, the recentering of the
    batch, the timer-driven reveal and the imperative handle.  It also
    covers what the versions of [App.tsx] share, the [isAnimating] gate of
    the Generate button, and two parts of the collect button: the retry
    loop [waitWithRetry] and the progress bar, the latter in binary64
    arithmetic.

    Conventions of the embedding.
    - A JavaScript [number] is an exact rational ([Q]); the rounding of
      binary64 arithmetic is not modelled.  The coordinates, offsets and
      colour channels the component reads are integers that binary64
      represents exactly.  The products [Math.random() * n] that the
      program floors are rounded there and exact here: what is stated of the
      draws that give a column or a slot of a table keeps [roundingMargin]
      away from the draws where the two floors can differ.  Numbers are
      compared with [==] ([Qeq]).  Counts
      that only drive loops ([numRows], [numBalls]) are [nat], and the
      [direction] of a vertex, one of the literals -1, 0 and 1, is a [Z].
    - A JavaScript string is a [string] of 8-bit characters.
    - An operation that may throw returns a [Completion].
    - [Math.random()] reads the next element of an explicit sequence of
      draws, threaded through the code in a small state monad.
    - React state, the interval timers and the notifications sent to the
      host live in an explicit [Component] record; an interval callback
      and the state updater it queues run as one atomic step. *)

From Stdlib Require Import ZArith QArith Qround Lia Lqa Ascii String HexString PrimFloat.
From Stdlib Require Import FloatOps SpecFloat Uint63.
From stdpp Require Import base option list gmap.

Local Open Scope string_scope.
Local Open Scope list_scope.
Local Open Scope Z_scope.

(** ** JavaScript primitives used by the component *)

Module JS.

(** The outcome of evaluating code that may throw.  The only exception the
    modelled code can raise is the [TypeError] of reading a property of
    [undefined]. *)
Inductive Completion (A : Type) : Type :=
| Normal (a : A)
| ThrowTypeError.
Arguments Normal {A} a.
Arguments ThrowTypeError {A}.

#[global] Instance Completion_bind : MBind Completion :=
  fun A B (k : A -> Completion B) (c : Completion A) =>
    match c with
    | Normal a => k a
    | ThrowTypeError => ThrowTypeError
    end.

(** [arr[i]] for an integer-valued [i]; [None] is [undefined]. *)
Definition element {A} (arr : list A) (i : Z) : option A :=
  if i <? 0 then None else arr !! Z.to_nat i.

(** A method call [v.m(...)] on a value that may be [undefined]. *)
Definition deref {A} (v : option A) : Completion A :=
  match v with
  | Some a => Normal a
  | None => ThrowTypeError
  end.

(** [s.slice(1)] *)
Definition slice1 (s : string) : string :=
  match s with
  | String _ rest => rest
  | EmptyString => EmptyString
  end.

Definition isWhiteSpace (c : ascii) : bool :=
  let n := Z.of_nat (nat_of_ascii c) in
  ((9 <=? n) && (n <=? 13)) || (n =? 32) || (n =? 160).

Definition hexDigit (c : ascii) : option Z :=
  let n := Z.of_nat (nat_of_ascii c) in
  if (48 <=? n) && (n <=? 57) then Some (n - 48)
  else if (97 <=? n) && (n <=? 102) then Some (n - 87)
  else if (65 <=? n) && (n <=? 70) then Some (n - 55)
  else None.

Fixpoint skipWhiteSpace (s : string) : string :=
  match s with
  | String c rest => if isWhiteSpace c then skipWhiteSpace rest else s
  | EmptyString => EmptyString
  end.

(** Value of the longest prefix of hexadecimal digits. *)
Fixpoint hexPrefix (acc : Z) (s : string) : Z :=
  match s with
  | String c rest =>
      match hexDigit c with
      | Some d => hexPrefix (16 * acc + d) rest
      | None => acc
      end
  | EmptyString => acc
  end.

(** Rounding of a mathematical integer to the nearest binary64 value, ties
    to even; [None] when the result is infinite. *)
Definition binary64_of_Z (z : Z) : option Z :=
  let a := Z.abs z in
  let e := Z.log2 a - 52 in
  if e <=? 0 then Some z
  else
    let q := Z.shiftr a e in
    let r := Z.land a (Z.ones e) in
    let half := Z.shiftl 1 (e - 1) in
    let q' := if (half <? r) || ((half =? r) && Z.odd q) then q + 1 else q in
    let v := Z.shiftl q' e in
    if 2 ^ 1024 <=? v then None else Some (Z.sgn z * v).

(** [parseInt(s, 16)].  [None] stands for a result that is not a finite
    number ([NaN], or an infinity for more than 256 digits). *)
Definition parseInt16 (s : string) : option Z :=
  let s1 := skipWhiteSpace s in
  let '(sign, s2) :=
    match s1 with
    | String "-" rest => (-1, rest)
    | String "+" rest => (1, rest)
    | _ => (1, s1)
    end in
  let s3 :=
    match s2 with
    | String "0" (String "x" rest) => rest
    | String "0" (String "X" rest) => rest
    | _ => s2
    end in
  match s3 with
  | String c _ =>
      match hexDigit c with
      | Some _ => z ← binary64_of_Z (hexPrefix 0 s3); Some (sign * z)
      | None => None
      end
  | EmptyString => None
  end.

(** The conversion applied to the operands of [>>] and [&]: not-a-number
    and the infinities become 0, anything else wraps to 32 signed bits. *)
Definition ToInt32 (v : option Z) : Z :=
  match v with
  | None => 0
  | Some z =>
      let m := z mod 2 ^ 32 in
      if m <? 2 ^ 31 then m else m - 2 ^ 32
  end.

(** [Math.floor] and [Math.round] on finite numbers. *)
Definition Math_floor (v : Q) : Z := Qfloor v.
Definition Math_round (v : Q) : Z := Qfloor (v + (1 # 2)).

(** [n.toString(16)] for an integer [n]. *)
Definition toString16 (n : Z) : string :=
  match n with
  | Z0 => "0"
  | Zpos p => HexString.Raw.of_pos p ""
  | Zneg p => String "-" (HexString.Raw.of_pos p "")
  end.

(** [s.padStart(2, "0")] *)
Definition padStart2 (s : string) : string :=
  match String.length s with
  | O => "00"
  | S O => String "0" s
  | _ => s
  end.

End JS.

Import JS.


(** ** Colour interpolation ([interpolateColor], both canvases) *)

Definition hexToRgb (hex : string) : Z * Z * Z :=
  let bigint := parseInt16 (slice1 hex) in
  (Z.land (Z.shiftr (ToInt32 bigint) 16) 255,
   Z.land (Z.shiftr (ToInt32 bigint) 8) 255,
   Z.land (ToInt32 bigint) 255).

Definition rgbToHex (r g b : Q) : string :=
  String "#"
    (String.concat ""
       (map (fun v => padStart2 (toString16 (Math_round v))) [r; g; b])).

Definition interpolateColor (gradient : list string) (ratio : Q) : Completion string :=
  let n := Z.of_nat (length gradient) - 1 in
  let scaled := (ratio * inject_Z n)%Q in
  let i := Math_floor scaled in
  let t := (scaled - inject_Z i)%Q in
  c1 ← deref (element gradient i);
  c2 ← deref (element gradient (i + 1));
  let '(r1, g1, b1) := hexToRgb c1 in
  let '(r2, g2, b2) := hexToRgb c2 in
  let r := (inject_Z r1 + (inject_Z r2 - inject_Z r1) * t)%Q in
  let g := (inject_Z g1 + (inject_Z g2 - inject_Z g1) * t)%Q in
  let b := (inject_Z b1 + (inject_Z b2 - inject_Z b1) * t)%Q in
  Normal (rgbToHex r g b).

(** ** Configuration and data model *)

(** The constants declared at the top of each component. *)
Record Config := {
  numRows : nat;
  numBalls : nat;
  stepSize : Q;
  totalCols : Q;
  visibleCols : Q;
  canvasWidth : Q;
  canvasHeight : Q;
  (** delay passed to [setInterval], in milliseconds *)
  revealDelay : Q;
  (** initial value of the [selectedGradient] state *)
  initialGradient : list string
}.

Record Point := { x : Q; y : Q; direction : Z }.

Record Tints := { left : string; right : string }.

Definition gradients : list (string * list string) :=
  [ ("neon", ["#00ffe5"; "#ff00ff"; "#ffff00"; "#00ff00"]);
    ("sunset", ["#ff7e5f"; "#feb47b"; "#ff6e7f"; "#bfe9ff"]);
    ("cyberpunk", ["#ff00c8"; "#00f0ff"; "#faff00"; "#ff6f00"]) ].

Definition tintOptions : list Tints :=
  [ {| left := "rgba(0,255,255,0.25)"; right := "rgba(255,0,255,0.25)" |};
    {| left := "rgba(255,0,0,0.25)"; right := "rgba(0,255,0,0.25)" |};
    {| left := "rgba(0,128,255,0.25)"; right := "rgba(255,255,0,0.25)" |} ].

Definition backgroundOptions : list string := ["#0d0221"; "#ffffff"].

Definition GridCanvas : Config := {|
  numRows := 40; numBalls := 100; stepSize := 30; totalCols := 40;
  visibleCols := 30; canvasWidth := 900; canvasHeight := 1200;
  revealDelay := 100; initialGradient := [] |}.

Definition PachinkoCanvas : Config := {|
  numRows := 40; numBalls := 200; stepSize := 30; totalCols := 40;
  visibleCols := 30; canvasWidth := 900; canvasHeight := 1200;
  revealDelay := 200;
  initialGradient := ["#00ffe5"; "#ff00ff"; "#ffff00"; "#00ff00"] |}.

(** ** The random source *)

(** [draws k] is the value of the [k]-th call of [Math.random()];
    [cursor] counts the calls made so far. *)
Record Random := { draws : nat -> Q; cursor : nat }.

Definition Rand (A : Type) : Type := Random -> A * Random.

#[global] Instance Rand_ret : MRet Rand := fun A a r => (a, r).

#[global] Instance Rand_bind : MBind Rand :=
  fun A B (k : A -> Rand B) (m : Rand A) r => let '(a, r') := m r in k a r'.

Definition Math_random : Rand Q :=
  fun r => (draws r (cursor r), {| draws := draws r; cursor := S (cursor r) |}).

(** [Array.from({ length: n }, f)] for a callback that ignores its
    arguments: [f] runs once per slot, in index order. *)
Fixpoint Array_from {A} (n : nat) (f : Rand A) : Rand (list A) :=
  match n with
  | O => mret []
  | S n' => a ← f; rest ← Array_from n' f; mret (a :: rest)
  end.

(** [arr[Math.floor(Math.random() * arr.length)]] *)
Definition randomElement {A} (arr : list A) : Rand (option A) :=
  u ← Math_random;
  mret (element arr (Math_floor (u * inject_Z (Z.of_nat (length arr))))).

(** ** Path simulation *)

Section Simulation.

Variable cfg : Config.

Definition origin (startX : Q) : Point := {| x := startX; y := 0; direction := 0 |}.

(** The body of the [for] loop of [simulateBall], run [rows] more times.
    [path] always holds at least its first vertex, so [path[path.length - 1]]
    is defined and the fallback of [default] is never taken. *)
Fixpoint simulateRows (rows : nat) (path : list Point) : Rand (list Point) :=
  match rows with
  | O => mret path
  | S rows' =>
      let last := default (origin 0) (last path) in
      u ← Math_random;
      let direction := if Qlt_le_dec u (1 # 2) then -1 else 1 in
      let newX := (x last + inject_Z direction * stepSize cfg)%Q in
      let newY := (y last + stepSize cfg)%Q in
      simulateRows rows' (path ++ [{| x := newX; y := newY; direction := direction |}])
  end.

Definition simulateBall (startX : Q) : Rand (list Point) :=
  simulateRows (numRows cfg) [origin startX].

Definition startColRange : Q * Q := ((- totalCols cfg) / 2, totalCols cfg / 2)%Q.

(** The column drawn for one ball, as a function of the value [u] returned
    by [Math.random()]. *)
Definition startCol (u : Q) : Q :=
  (inject_Z (Math_floor (u * (snd startColRange - fst startColRange + 1)))
   + fst startColRange)%Q.

Definition startXOf (u : Q) : Q := (startCol u * stepSize cfg)%Q.

Definition allPaths : Rand (list (list Point)) :=
  Array_from (numBalls cfg) (u ← Math_random; simulateBall (startXOf u)).

Definition centerOffset : Q := ((totalCols cfg - visibleCols cfg) / 2 * stepSize cfg)%Q.

Definition recenterPoint (p : Point) : Point :=
  {| x := (x p - centerOffset + canvasWidth cfg / 2)%Q;
     y := y p;
     direction := direction p |}.

Definition recenter (all : list (list Point)) : list (list Point) :=
  map (fun path => map recenterPoint path) all.

End Simulation.

(** ** The component: React state, interval timers, notifications *)

(** The closure that [regenerate] hands to [setInterval]: the batch it
    reveals and its mutable [index]. *)
Record Reveal := { paths : list (list Point); index : nat }.

(** Calls of the host's callbacks.  The number is the interval identifier of
    the generation that made the call (the host itself does not see it). *)
Inductive Notification :=
| AnimationStart (generation : nat)
| AnimationEnd (generation : nat).

#[global] Instance Notification_eq_dec : EqDecision Notification.
Proof. solve_decision. Defined.

Record Component := {
  visiblePaths : list (list Point);
  selectedGradient : option (list string);
  tints : option Tints;
  bgColor : option string;
  (** the intervals that have been set and not cleared *)
  intervals : gmap nat Reveal;
  (** identifier the next [setInterval] returns *)
  nextInterval : nat;
  (** host callbacks invoked so far, oldest first *)
  notifications : list Notification;
  random : Random
}.

Section Animator.

Variable cfg : Config.

(** The component after its first render, before any effect has run.  The
    identifiers of intervals are handed out in increasing order, from 1. *)
Definition mount (r : Random) : Component := {|
  visiblePaths := [];
  selectedGradient := Some (initialGradient cfg);
  tints := tintOptions !! 0%nat;
  bgColor := backgroundOptions !! 0%nat;
  intervals := ∅;
  nextInterval := 1;
  notifications := [];
  random := r |}.

(** The random part of [regenerate]: colour scheme, then the batch. *)
Definition generate : Rand (option (list string) * option Tints * option string
                            * list (list Point)) :=
  randomGradient ← randomElement (map snd gradients);
  randomTints ← randomElement tintOptions;
  randomBackground ← randomElement backgroundOptions;
  all ← allPaths cfg;
  mret (randomGradient, randomTints, randomBackground, recenter cfg all).

(** [regenerate]: notify the host, draw the scheme and the batch, reset the
    revealed paths and set a new interval.  Nothing here clears an interval;
    the only [clearInterval] of the component is in [tick].  The host
    callbacks are taken to be supplied, so every call is logged. *)
Definition regenerate (c : Component) : Component :=
  let interval := nextInterval c in
  let '(randomGradient, randomTints, randomBackground, batch, r) := generate (random c) in
  {| visiblePaths := [];
     selectedGradient := randomGradient;
     tints := randomTints;
     bgColor := randomBackground;
     intervals := <[interval := {| paths := batch; index := 0 |}]> (intervals c);
     nextInterval := S interval;
     notifications := notifications c ++ [AnimationStart interval];
     random := r |}.

(** One firing of the interval [interval] together with the state updater
    it queues.  A cleared interval does not fire.  [paths !! index] is
    defined exactly when [index < paths.length]. *)
Definition tick (interval : nat) (c : Component) : Component :=
  match intervals c !! interval with
  | None => c
  | Some rv =>
      match paths rv !! index rv with
      | Some path =>
          {| visiblePaths := visiblePaths c ++ [path];
             selectedGradient := selectedGradient c;
             tints := tints c;
             bgColor := bgColor c;
             intervals :=
               <[interval := {| paths := paths rv; index := S (index rv) |}]> (intervals c);
             nextInterval := nextInterval c;
             notifications := notifications c;
             random := random c |}
      | None =>
          {| visiblePaths := visiblePaths c;
             selectedGradient := selectedGradient c;
             tints := tints c;
             bgColor := bgColor c;
             intervals := delete interval (intervals c);
             nextInterval := nextInterval c;
             notifications := notifications c ++ [AnimationEnd interval];
             random := random c |}
      end
  end.

(** What can happen to a mounted component. *)
Inductive Event :=
| Regenerate
| Tick (interval : nat).

Definition step (c : Component) (e : Event) : Component :=
  match e with
  | Regenerate => regenerate c
  | Tick interval => tick interval c
  end.

Definition run (c : Component) (events : list Event) : Component :=
  foldl step c events.

(** The imperative handle's second operation. *)
Definition getVisibleCanvasWidth (c : Component) : Q * Component :=
  ((canvasWidth cfg * (4 # 10))%Q, c).

(** *** The drawing effect *)

Inductive DrawOp :=
| ClearRect (x0 y0 w h : Q)
| Stroke (p1 p2 : Point) (strokeStyle : string) (lineWidth : Q) (shadowBlur : Q).

(** The pairs [(path[i], path[i + 1])] for [i] from 0 to
    [path.length - 2]. *)
Fixpoint segments (path : list Point) : list (Point * Point) :=
  match path with
  | p1 :: rest =>
      match rest with
      | p2 :: _ => (p1, p2) :: segments rest
      | [] => []
      end
  | [] => []
  end.

Definition baseRatio (p1 p2 : Point) : Q :=
  let avgY := ((y p1 + y p2) / 2)%Q in
  (avgY / canvasHeight cfg)%Q.

Definition drawSegment (gradient : option (list string)) (tn : option Tints)
    (seg : Point * Point) : Completion (list DrawOp) :=
  let '(p1, p2) := seg in
  g ← deref gradient;
  baseColor ← interpolateColor g (baseRatio p1 p2);
  t ← deref tn;
  let tint := if decide (direction p2 = -1) then left t else right t in
  Normal [Stroke p1 p2 baseColor 4 0; Stroke p1 p2 tint 4 10].

Fixpoint forEach {A} (f : A -> Completion (list DrawOp)) (l : list A)
    : Completion (list DrawOp) :=
  match l with
  | [] => Normal []
  | a :: l' => ops ← f a; rest ← forEach f l'; Normal (ops ++ rest)
  end.

(** The effect that redraws the canvas, for a canvas that is present (when
    it is not, [GridCanvas] returns before drawing anything). *)
Definition draw (c : Component) : Completion (list DrawOp) :=
  ops ← forEach (fun path => forEach (drawSegment (selectedGradient c) (tints c))
                               (segments path))
        (visiblePaths c);
  Normal (ClearRect 0 0 (canvasWidth cfg) (canvasHeight cfg) :: ops).

End Animator.

(** ** The host ([App.tsx]) *)

(** What the three versions of [App] have in common: the canvas they render
    and the [isAnimating] state that the canvas sets through its two
    callbacks and that disables the Generate button.  [deferredStart] tells
    how the canvas starts its first generation: [GridCanvas] from a
    [requestAnimationFrame] callback, [PachinkoCanvas] in its mount effect. *)
Record Host := { component : Config; deferredStart : bool }.

Definition GridApp : Host := {| component := GridCanvas; deferredStart := true |}.
Definition PachinkoApp : Host := {| component := PachinkoCanvas; deferredStart := false |}.

Record App := {
  isAnimating : bool;
  (** the animation frame requested by the mount effect has not come yet *)
  framePending : bool;
  canvas : Component
}.

(** [onAnimationStart={() => setIsAnimating(true)}] and
    [onAnimationEnd={() => setIsAnimating(false)}]. *)
Definition onNotification (animating : bool) (n : Notification) : bool :=
  match n with
  | AnimationStart _ => true
  | AnimationEnd _ => false
  end.

(** The notifications a step of the canvas has added to the log. *)
Definition sentBy (c c' : Component) : list Notification :=
  drop (length (notifications c)) (notifications c').

Inductive AppEvent :=
| Frame
| Generate
| Fire (interval : nat).

Section HostModel.

Variable h : Host.

(** A step of the canvas, with the callbacks it invokes applied to the
    host's state in the order of the calls. *)
Definition canvasStep (a : App) (e : Event) : App :=
  let c' := step (component h) (canvas a) e in
  {| isAnimating := foldl onNotification (isAnimating a) (sentBy (canvas a) c');
     framePending := framePending a;
     canvas := c' |}.

(** [Frame]: the animation frame of the mount effect, which comes once.
    [Generate]: [handleGenerate], the click handler of the Generate button.
    [Fire]: a firing of an interval of the canvas. *)
Definition appStep (a : App) (e : AppEvent) : App :=
  match e with
  | Frame =>
      if framePending a then
        canvasStep {| isAnimating := isAnimating a; framePending := false;
                      canvas := canvas a |} Regenerate
      else a
  | Generate => canvasStep a Regenerate
  | Fire interval => canvasStep a (Tick interval)
  end.

Definition appRun (a : App) (events : list AppEvent) : App := foldl appStep a events.

(** The host after its first render and the mount effects. *)
Definition appMount (r : Random) : App :=
  let a := {| isAnimating := false; framePending := deferredStart h;
              canvas := mount (component h) r |} in
  if deferredStart h then a else canvasStep a Regenerate.

(** [handleGenerate] runs only while the Generate button is enabled, that is
    while [isAnimating] is false. *)
Fixpoint gated (a : App) (events : list AppEvent) : Prop :=
  match events with
  | [] => True
  | e :: rest =>
      (e = Generate -> isAnimating a = false) /\ gated (appStep a e) rest
  end.

(** As [gated], and moreover no click on Generate comes before the animation
    frame of the mount effect. *)
Fixpoint orderly (a : App) (events : list AppEvent) : Prop :=
  match events with
  | [] => True
  | e :: rest =>
      (e = Generate -> isAnimating a = false /\ framePending a = false)
      /\ orderly (appStep a e) rest
  end.

(** The three situations of a host that is used in an orderly way: waiting
    for the first frame, revealing a batch, showing a whole batch. *)
Definition hostInv (a : App) : Prop :=
  let c := canvas a in
  (framePending a = true /\ isAnimating a = false
   /\ intervals c = ∅ /\ visiblePaths c = [])
  \/ (framePending a = false /\ isAnimating a = true
      /\ exists id rv r0,
           intervals c = {[ id := rv ]}
           /\ paths rv = (generate (component h) r0).1.2
           /\ (index rv <= length (paths rv))%nat
           /\ visiblePaths c = take (index rv) (paths rv))
  \/ (framePending a = false /\ isAnimating a = false
      /\ intervals c = ∅
      /\ exists r0, visiblePaths c = (generate (component h) r0).1.2).

(** What the canvas of a host shows after its first frame: [r] is the random
    source at mount, [r0] the source as the latest call of [regenerate] found
    it and [k] the number of paths revealed since.  The colour scheme and the
    batch are those of that one call. *)
Definition showsBatch (r : Random) (a : App) (r0 : Random) (k : nat) : Prop :=
  let c := canvas a in
  let g := generate (component h) r0 in
  draws r0 = draws r
  /\ random c = g.2
  /\ selectedGradient c = g.1.1.1.1
  /\ tints c = g.1.1.1.2
  /\ bgColor c = g.1.1.2
  /\ (k <= numBalls (component h))%nat
  /\ visiblePaths c = take k g.1.2
  /\ (isAnimating a = true ->
      intervals c = {[ pred (nextInterval c) := {| paths := g.1.2; index := k |} ]})
  /\ (isAnimating a = false ->
      intervals c = ∅ /\ k = numBalls (component h)).

Definition batchInv (r : Random) (a : App) : Prop :=
  let c := canvas a in
  (framePending a = true ->
   isAnimating a = false /\ intervals c = ∅ /\ visiblePaths c = [] /\ random c = r)
  /\ (framePending a = false -> exists r0 k, showsBatch r a r0 k).

End HostModel.

(** ** The collect button ([CollectButton.tsx]) *)

(** *** Waiting for the receipt ([waitWithRetry]) *)

Module Retry.

Section WithClient.

(** The receipts of the chain client, and the client itself as seen by
    [waitWithRetry]: [client k] is the outcome of the [k]-th call of
    [getTransactionReceipt], counted from 0, [None] when the call throws. *)
Variable Receipt : Type.
Variable client : nat -> option Receipt.

Definition maxRetries : nat := 10.
Definition delay : nat := 1500.

(** How a call of [waitWithRetry] ends.  [Fallthrough] is the [undefined] a
    [for] loop that runs to its end would leave as the result. *)
Inductive Outcome :=
| Returned (receipt : Receipt)
| Thrown (message : string)
| Fallthrough.

(** What the call has done so far: calls of the client, and milliseconds
    spent in [setTimeout]. *)
Record Effort := { calls : nat; waited : nat }.

(** The loop from its iteration [i] on; [iterations] is the number of values
    of [i] left up to [maxRetries]. *)
Fixpoint waitLoop (iterations i : nat) (e : Effort) : Outcome * Effort :=
  match iterations with
  | O => (Fallthrough, e)
  | S iterations' =>
      match client (calls e) with
      | Some receipt => (Returned receipt, {| calls := S (calls e); waited := waited e |})
      | None =>
          if (i =? maxRetries)%nat then
            (Thrown "Transaction confirmation timeout",
             {| calls := S (calls e); waited := waited e |})
          else
            waitLoop iterations' (S i)
              {| calls := S (calls e); waited := (waited e + delay)%nat |}
      end
  end.

Definition waitWithRetry : Outcome * Effort :=
  waitLoop maxRetries 1 {| calls := 0; waited := 0 |}.

End WithClient.

Arguments Returned {Receipt} receipt.
Arguments Thrown {Receipt} message.
Arguments Fallthrough {Receipt}.

End Retry.

(** *** The progress bar and the minting limit *)

Module Mint.

(** [Number(n)] for a bigint [n] with [0 <= n < 2^63]; the contract's
    counters are unsigned and far below that. *)
Definition Number_of (n : Z) : float := PrimFloat.of_uint63 (Uint63.of_Z n).

(** [Math.floor] of a binary64 number, as an integer; [None] for a NaN or
    an infinity, which a quotient of counters never is. *)
Definition Math_floor64 (f : float) : option Z :=
  match Prim2SF f with
  | S754_zero _ => Some 0
  | S754_finite s m e =>
      let n := if s then Zneg m else Zpos m in
      Some (if 0 <=? e then n * 2 ^ e else Z.shiftr n (- e))
  | _ => None
  end.

(** [typeof totalMinted === "bigint" ? Number(totalMinted) : 0], where
    [None] is a counter that has not been read yet. *)
Definition total (totalMinted : option Z) : float :=
  match totalMinted with
  | Some n => Number_of n
  | None => Number_of 0
  end.

(** [Math.min(100, Math.floor((total / 1000) * 100))] *)
Definition mintProgress (total : float) : option Z :=
  q ← Math_floor64 (PrimFloat.mul (PrimFloat.div total (Number_of 1000)) (Number_of 100));
  Some (Z.min 100 q).

(** [total >= 1000 || mine >= 10] *)
Definition mintLimitReached (total mine : float) : bool :=
  PrimFloat.leb (Number_of 1000) total || PrimFloat.leb (Number_of 10) mine.

(** What [mintProgress_spec] establishes for the counter [n], as a test. *)
Definition progressOK (n : Z) : bool :=
  match mintProgress (total (Some n)) with
  | Some q =>
      (0 <=? q) && (q <=? 100)
      && Bool.eqb (q =? 100) (1000 <=? n)
      && ((1000 <=? n)
          || (((q =? n / 10) || (q =? n / 10 - 1))
              && Bool.eqb (q =? n / 10 - 1) ((n =? 290) || (n =? 570) || (n =? 580))))
      && Bool.eqb (mintLimitReached (total (Some n)) (total None)) (q =? 100)
  | None => false
  end.

End Mint.

(** ** Predicates used to state the properties *)

Definition isLowerHexDigit (c : ascii) : bool :=
  let n := Z.of_nat (nat_of_ascii c) in
  ((48 <=? n) && (n <=? 57)) || ((97 <=? n) && (n <=? 102)).

(** A control colour: ["#"] followed by six lowercase hexadecimal digits. *)
Definition validColor (s : string) : bool :=
  match s with
  | String "#" rest =>
      (String.length rest =? 6)%nat
      && forallb isLowerHexDigit (list_ascii_of_string rest)
  | _ => false
  end.

Definition lowerHexChar (d : Z) : ascii :=
  ascii_of_nat (Z.to_nat (if d <? 10 then 48 + d else 87 + d)).

(** What one iteration of the loop of [simulateBall] establishes between the
    vertex it reads and the vertex it pushes. *)
Definition stepOK (cfg : Config) (seg : Point * Point) : Prop :=
  let '(p1, p2) := seg in
  (y p2 == y p1 + stepSize cfg)%Q
  /\ (direction p2 = -1 \/ direction p2 = 1)
  /\ (x p2 == x p1 + inject_Z (direction p2) * stepSize cfg)%Q.

(** Every value [Math.random()] returns lies in [0, 1). *)
Definition unitDraws (r : Random) : Prop :=
  forall k, (0 <= draws r k /\ draws r k < 1)%Q.

(** A concrete random source, used to instantiate the statements. *)
Definition sampleRandom : Random :=
  {| draws := fun k => if Nat.even k then 1 # 4 else 3 # 4; cursor := 0 |}.

(** A path all of whose segments get a ratio in [1/80, 79/80]. *)
Definition inRange (cfg : Config) (path : list Point) : Prop :=
  Forall (fun seg => (1 # 80 <= baseRatio cfg seg.1 seg.2)%Q
                     /\ (baseRatio cfg seg.1 seg.2 <= 79 # 80)%Q)
         (segments path).

(** The constants shared by [GridCanvas] and [PachinkoCanvas] that decide
    the ratios. *)
Definition fortyRows (cfg : Config) : Prop :=
  numRows cfg = 40%nat
  /\ (stepSize cfg == 30)%Q
  /\ (canvasHeight cfg == 1200)%Q.

(** Number of firings of [interval] among [events]. *)
Fixpoint firings (interval : nat) (events : list Event) : nat :=
  match events with
  | [] => 0
  | Tick i :: rest => (if decide (i = interval) then 1 else 0) + firings interval rest
  | Regenerate :: rest => firings interval rest
  end.

(** Every live interval was handed out by an earlier [setInterval]. *)
Definition fresh (c : Component) : Prop :=
  forall i, is_Some (intervals c !! i) -> (i < nextInterval c)%nat.

(** The component [j] firings after a [regenerate] that found no live
    interval: [log0] is the notification log before the call, [id] the new
    interval and [batch] what it reveals. *)
Definition Revealing (log0 : list Notification) (id : nat)
    (batch : list (list Point)) (j : nat) (c : Component) : Prop :=
  visiblePaths c = take j batch
  /\ (((j <= length batch)%nat
       /\ intervals c = {[ id := {| paths := batch; index := j |} ]}
       /\ notifications c = log0 ++ [AnimationStart id])
      \/ ((length batch < j)%nat
          /\ intervals c = ∅
          /\ notifications c = log0 ++ [AnimationStart id; AnimationEnd id])).

(** The states a mounted component can be in: any interleaving of calls of
    [regenerate] and firings of intervals. *)
Inductive reachable (cfg : Config) (r : Random) : Component -> Prop :=
| reachable_mount : reachable cfg r (mount cfg r)
| reachable_step (c : Component) (e : Event) :
    reachable cfg r c -> reachable cfg r (step cfg c e).

(** The invariant of the reachable states under which [draw] completes. *)
Definition drawable (cfg : Config) (c : Component) : Prop :=
  unitDraws (random c)
  /\ Forall (inRange cfg) (visiblePaths c)
  /\ (forall i rv, intervals c !! i = Some rv -> Forall (inRange cfg) (paths rv))
  /\ ((visiblePaths c = [] /\ intervals c = ∅)
      \/ exists g t, selectedGradient c = Some g /\ (2 <= length g)%nat
                     /\ tints c = Some t).

(** [Math.random() * n] is a product of binary64 numbers in the program and
    an exact product here.  For [n] below 2^53 the two are less than [n] times
    2^-53 apart, so that they have the same floor for every draw that is at
    least 2^-50 away from the multiples of [1 / n].  What is stated of the
    draws that give a column, or a slot of a table, is stated for the draws
    that far inside. *)
Definition roundingMargin : Q := 1 # 1125899906842624.

(** [v] lies between [a] and [b], whichever of the two is the larger. *)
Definition between (a v b : Z) : Prop := Z.min a b <= v <= Z.max a b.

(** The direction [simulateBall] takes for the draw [u]. *)
Definition stepDirection (u : Q) : Z := if Qlt_le_dec u (1 # 2) then -1 else 1.

(** The segments the drawing effect visits, in the order it visits them. *)
Definition allSegments (visible : list (list Point)) : list (Point * Point) :=
  concat (map segments visible).

(** The two strokes [ops] that the drawing effect issues for [seg] in the
    state [c]: a plain one in the interpolated colour, then a blurred one in
    the tint chosen by the direction of the segment's second vertex. *)
Definition strokesFor (cfg : Config) (c : Component) (seg : Point * Point)
    (ops : list DrawOp) : Prop :=
  exists g t color,
    selectedGradient c = Some g
    /\ tints c = Some t
    /\ interpolateColor g (baseRatio cfg seg.1 seg.2) = Normal color
    /\ ops = [Stroke seg.1 seg.2 color 4 0;
              Stroke seg.1 seg.2 (if decide (direction seg.2 = -1) then left t else right t)
                4 10].

(** A path as [simulateBall] builds it, wherever it has been moved to
    sideways: [numRows + 1] vertices, the first at height 0, each step as
    [stepOK] describes. *)
Definition wellFormedPath (cfg : Config) (path : list Point) : Prop :=
  length path = S (numRows cfg)
  /\ (exists p0, head path = Some p0 /\ y p0 = 0%Q /\ direction p0 = 0)
  /\ Forall (stepOK cfg) (segments path).

(** The discipline of the notifications sent to the host. *)
Definition protocolOK (c : Component) : Prop :=
  (1 <= nextInterval c)%nat
  /\ NoDup (notifications c)
  /\ (forall g, AnimationStart g ∈ notifications c <-> (1 <= g < nextInterval c)%nat)
  /\ (forall g before after,
        notifications c = before ++ AnimationEnd g :: after ->
        AnimationStart g ∈ before)
  /\ (forall g, AnimationEnd g ∈ notifications c -> intervals c !! g = None)
  /\ (forall g, is_Some (intervals c !! g) -> (1 <= g < nextInterval c)%nat).

(** * Properties *)

(** ** Hexadecimal colours survive [hexToRgb] and [rgbToHex] *)

Ltac each_ascii c :=
  destruct c as [[] [] [] [] [] [] [] []].

Lemma hexDigit_lower (c : ascii) :
  isLowerHexDigit c = true ->
  exists d, hexDigit c = Some d /\ 0 <= d < 16 /\ lowerHexChar d = c.
Proof.
  intros H. each_ascii c; try discriminate H;
    (eexists; split;
     [ reflexivity
     | split; [split; [apply Z.leb_le | apply Z.ltb_lt]; reflexivity | reflexivity] ]).
Qed.

Lemma parseInt16_lower_hex (c : ascii) (rest : string) :
  isLowerHexDigit c = true ->
  (forall c2 r, rest = String c2 r -> isLowerHexDigit c2 = true) ->
  parseInt16 (String c rest)
  = (z ← binary64_of_Z (hexPrefix 0 (String c rest)); Some (1 * z)).
Proof.
  intros Hc Hrest.
  each_ascii c; try discriminate Hc; try reflexivity.
  destruct rest as [|c2 r]; [reflexivity|].
  specialize (Hrest c2 r eq_refl).
  each_ascii c2; try discriminate Hrest; reflexivity.
Qed.

Lemma binary64_of_Z_small (z : Z) :
  0 <= z < 2 ^ 53 -> binary64_of_Z z = Some z.
Proof.
  intros Hz. unfold binary64_of_Z.
  destruct (Z.leb_spec (Z.log2 (Z.abs z) - 52) 0) as [|Hlt]; [reflexivity|].
  exfalso. rewrite Z.abs_eq in Hlt by lia.
  destruct (Z.eq_dec z 0) as [->|Hnz]; [cbn in Hlt; lia|].
  assert (Z.log2 z < 53) by (apply Z.log2_lt_pow2; lia).
  lia.
Qed.

Lemma ToInt32_small (z : Z) : 0 <= z < 2 ^ 31 -> ToInt32 (Some z) = z.
Proof.
  intros Hz. unfold ToInt32.
  rewrite Z.mod_small by lia.
  destruct (Z.ltb_spec z (2 ^ 31)); lia.
Qed.

Ltac each_digit d :=
  match goal with
  | H : 0 <= d < 16 |- _ =>
      let E := fresh "E" in
      assert (E : d = 0 \/ d = 1 \/ d = 2 \/ d = 3 \/ d = 4 \/ d = 5 \/ d = 6
                  \/ d = 7 \/ d = 8 \/ d = 9 \/ d = 10 \/ d = 11 \/ d = 12
                  \/ d = 13 \/ d = 14 \/ d = 15) by lia;
      clear H;
      repeat (destruct E as [E|E]; [subst d|]); [..|subst d]
  end.

Lemma channel_toString (d1 d2 : Z) :
  0 <= d1 < 16 -> 0 <= d2 < 16 ->
  padStart2 (toString16 (16 * d1 + d2))
  = String (lowerHexChar d1) (String (lowerHexChar d2) EmptyString).
Proof.
  intros H1 H2. each_digit d1; each_digit d2; reflexivity.
Qed.

Lemma Math_round_integer (q : Q) (z : Z) : (q == inject_Z z)%Q -> Math_round q = z.
Proof.
  intros Hq. unfold Math_round. rewrite Hq.
  unfold Qfloor, Qplus, inject_Z. cbn [Qnum Qden].
  change (Z.pos (1 * 2)) with 2.
  symmetry. apply (Z.div_unique _ _ _ 1); lia.
Qed.

(** A valid control colour, split into its six digits. *)
Lemma validColor_digits (s : string) :
  validColor s = true ->
  exists d1 d2 d3 d4 d5 d6,
    (0 <= d1 < 16 /\ 0 <= d2 < 16 /\ 0 <= d3 < 16)
    /\ (0 <= d4 < 16 /\ 0 <= d5 < 16 /\ 0 <= d6 < 16)
    /\ s = String "#" (string_of_list_ascii (map lowerHexChar [d1; d2; d3; d4; d5; d6]))
    /\ hexToRgb s = (16 * d1 + d2, 16 * d3 + d4, 16 * d5 + d6).
Proof.
  intros Hv. unfold validColor in Hv.
  destruct s as [|c0 rest]; [discriminate|].
  destruct (ascii_dec c0 "#") as [->|Hne].
  2: { each_ascii c0; try discriminate Hv. congruence. }
  apply andb_prop in Hv as [Hlen Hall]. apply Nat.eqb_eq in Hlen.
  destruct rest as [|c1 [|c2 [|c3 [|c4 [|c5 [|c6 [|]]]]]]]; try discriminate Hlen.
  cbn [list_ascii_of_string forallb] in Hall.
  repeat (apply andb_prop in Hall as [? Hall]).
  destruct (hexDigit_lower c1) as (d1 & E1 & B1 & <-); [assumption|].
  destruct (hexDigit_lower c2) as (d2 & E2 & B2 & <-); [assumption|].
  destruct (hexDigit_lower c3) as (d3 & E3 & B3 & <-); [assumption|].
  destruct (hexDigit_lower c4) as (d4 & E4 & B4 & <-); [assumption|].
  destruct (hexDigit_lower c5) as (d5 & E5 & B5 & <-); [assumption|].
  destruct (hexDigit_lower c6) as (d6 & E6 & B6 & <-); [assumption|].
  exists d1, d2, d3, d4, d5, d6.
  split; [auto|]. split; [auto|]. split; [reflexivity|].
  unfold hexToRgb. cbn [slice1].
  rewrite parseInt16_lower_hex by (try assumption; intros ? ? [= <- _]; assumption).
  cbn [hexPrefix]. rewrite E1, E2, E3, E4, E5, E6.
  set (v := 16 * (16 * (16 * (16 * (16 * (16 * 0 + d1) + d2) + d3) + d4) + d5) + d6).
  assert (Hv : 0 <= v < 2 ^ 24) by (subst v; lia).
  rewrite binary64_of_Z_small by lia. cbn [mbind option_bind].
  rewrite Z.mul_1_l, ToInt32_small by lia.
  change 255 with (Z.ones 8).
  rewrite !Z.land_ones, !Z.shiftr_div_pow2 by lia.
  change (2 ^ 16) with 65536. change (2 ^ 8) with 256.
  subst v. f_equal; [f_equal|]; Z.div_mod_to_equations; lia.
Qed.

(** ** Colour interpolation at the two ends of the ratio range *)

Lemma element_nat {A} (arr : list A) (k : nat) : element arr (Z.of_nat k) = arr !! k.
Proof.
  unfold element. destruct (Z.ltb_spec (Z.of_nat k) 0); [lia|].
  now rewrite Nat2Z.id.
Qed.

Lemma Math_floor_integer (q : Q) (z : Z) : (q == inject_Z z)%Q -> Math_floor q = z.
Proof. intros ->. apply Qfloor_Z. Qed.

(** C2 (as amended): for every gradient of at least two valid 6-digit
    lowercase hex control colours, [interpolateColor(gradient, 0.0)] returns
    [gradient[0]]. *)
Theorem interpolateColor_ratio_0 (gradient : list string) :
  (2 <= length gradient)%nat ->
  Forall (fun c => validColor c = true) gradient ->
  exists c0, gradient !! 0%nat = Some c0 /\ interpolateColor gradient 0 = Normal c0.
Proof.
  intros Hlen Hvalid.
  destruct gradient as [|c0 [|c1 rest]]; cbn [length] in Hlen; try lia.
  exists c0. split; [reflexivity|].
  apply Forall_cons in Hvalid as [Hc0 _].
  destruct (validColor_digits c0 Hc0)
    as (d1 & d2 & d3 & d4 & d5 & d6 & (B1 & B2 & B3) & (B4 & B5 & B6) & Hs & Hrgb).
  unfold interpolateColor.
  set (n := Z.of_nat (length (c0 :: c1 :: rest)) - 1).
  assert (Hfloor : Math_floor (0 * inject_Z n) = 0)
    by (apply Math_floor_integer; ring).
  rewrite Hfloor.
  change (element (c0 :: c1 :: rest) 0) with (Some c0).
  change (element (c0 :: c1 :: rest) (0 + 1)) with (Some c1).
  cbn [deref mbind Completion_bind]. rewrite Hrgb.
  destruct (hexToRgb c1) as [[r2 g2] b2].
  unfold rgbToHex. cbn [map].
  rewrite (Math_round_integer _ (16 * d1 + d2)) by ring.
  rewrite (Math_round_integer _ (16 * d3 + d4)) by ring.
  rewrite (Math_round_integer _ (16 * d5 + d6)) by ring.
  rewrite !channel_toString by assumption.
  rewrite Hs. reflexivity.
Qed.

Lemma interpolateColor_ratio_0_witness :
  exists c0, ["#ff7e5f"; "#feb47b"; "#ff6e7f"; "#bfe9ff"] !! 0%nat = Some c0
             /\ interpolateColor ["#ff7e5f"; "#feb47b"; "#ff6e7f"; "#bfe9ff"] 0 = Normal c0.
Proof.
  apply (interpolateColor_ratio_0 ["#ff7e5f"; "#feb47b"; "#ff6e7f"; "#bfe9ff"]).
  - cbn. lia.
  - repeat constructor.
Defined.

(** C2 fails as stated: a gradient of one valid colour has no second
    control colour to read at ratio 0, and at ratio 1 the read past the end
    of a four-colour gradient throws instead of returning its last colour. *)
Lemma interpolateColor_endpoints_counterexample :
  (["#00ffe5"] <> [] /\ Forall (fun c => validColor c = true) ["#00ffe5"]
   /\ ["#00ffe5"] !! 0%nat = Some "#00ffe5"
   /\ interpolateColor ["#00ffe5"] 0 <> Normal "#00ffe5")
  /\ (Forall (fun c => validColor c = true) ["#00ffe5"; "#ff00ff"; "#ffff00"; "#00ff00"]
      /\ last ["#00ffe5"; "#ff00ff"; "#ffff00"; "#00ff00"] = Some "#00ff00"
      /\ interpolateColor ["#00ffe5"; "#ff00ff"; "#ffff00"; "#00ff00"] 1
         <> Normal "#00ff00").
Proof.
  repeat split; try discriminate; repeat constructor.
Qed.

(** C3 fails as stated: for a gradient of four colours the index at ratio 1
    is 3, not clamped to 2; the second lookup, at 4, is past the end of the
    gradient, and the call throws instead of returning a colour. *)
Lemma interpolateColor_ratio_1_counterexample :
  let gradient := ["#00ffe5"; "#ff00ff"; "#ffff00"; "#00ff00"] in
  let i := Math_floor (1 * inject_Z (Z.of_nat (length gradient) - 1)) in
  i = 3
  /\ Z.of_nat (length gradient) <= i + 1
  /\ element gradient (i + 1) = None
  /\ interpolateColor gradient 1 = ThrowTypeError
  /\ ~ (exists color, interpolateColor gradient 1 = Normal color).
Proof.
  cbv zeta. split; [reflexivity|]. split; [vm_compute; discriminate|].
  split; [reflexivity|]. split; [reflexivity|].
  intros [color H]. discriminate H.
Qed.

(** C3 (as amended): at ratio exactly 1 the index is not clamped.  For every
    gradient the second lookup, [gradient[i + 1]], is one past the end (or,
    for the empty gradient, the first lookup is at -1), and
    [interpolateColor] throws. *)
Theorem interpolateColor_ratio_1_throws (gradient : list string) :
  let n := Z.of_nat (length gradient) - 1 in
  let i := Math_floor (1 * inject_Z n) in
  i + 1 = Z.of_nat (length gradient)
  /\ element gradient (i + 1) = None
  /\ interpolateColor gradient 1 = ThrowTypeError.
Proof.
  intros n i.
  assert (Hi : i = n) by (apply Math_floor_integer; ring).
  assert (Hnext : element gradient (i + 1) = None).
  { rewrite Hi. subst n. replace (Z.of_nat (length gradient) - 1 + 1)
      with (Z.of_nat (length gradient)) by lia.
    rewrite element_nat. apply lookup_ge_None. lia. }
  split; [subst n; lia|]. split; [exact Hnext|].
  unfold interpolateColor. fold n. fold i. rewrite Hnext.
  destruct (deref (element gradient i)); reflexivity.
Qed.

(** ** The simulated walk *)

Section SimulationFacts.

Variable cfg : Config.

Lemma segments_snoc (path : list Point) (pl p : Point) :
  last path = Some pl ->
  segments (path ++ [p]) = segments path ++ [(pl, p)].
Proof.
  induction path as [|a [|b rest] IH]; intros Hlast.
  - discriminate.
  - injection Hlast as ->. reflexivity.
  - change (segments ((a :: b :: rest) ++ [p]))
      with ((a, b) :: segments ((b :: rest) ++ [p])).
    rewrite IH by exact Hlast. reflexivity.
Qed.

Lemma simulateRows_inv (rows : nat) :
  forall (path : list Point) (r : Random) (pl : Point),
    last path = Some pl ->
    Forall (stepOK cfg) (segments path) ->
    let res := (simulateRows cfg rows path r).1 in
    length res = (length path + rows)%nat
    /\ head res = head path
    /\ Forall (stepOK cfg) (segments res)
    /\ exists pl', last res = Some pl'
                   /\ (y pl' == y pl + inject_Z (Z.of_nat rows) * stepSize cfg)%Q.
Proof.
  induction rows as [|rows IH]; intros path r pl Hlast Hsegs.
  - cbn. repeat split; [lia | assumption |].
    exists pl. split; [assumption | ring].
  - cbn [simulateRows]. rewrite Hlast. cbn [from_option id].
    unfold mbind, Rand_bind, Math_random.
    set (dir := if Qlt_le_dec (draws r (cursor r)) (1 # 2) then -1 else 1).
    set (new := {| x := (x pl + inject_Z dir * stepSize cfg)%Q;
                   y := (y pl + stepSize cfg)%Q;
                   direction := dir |}).
    set (r' := {| draws := draws r; cursor := S (cursor r) |}).
    destruct (IH (path ++ [new]) r' new) as (Hlen & Hhead & Hall & pl' & Hl' & Hy).
    + apply last_snoc.
    + rewrite (segments_snoc path pl new Hlast).
      apply Forall_app. split; [assumption|].
      constructor; [|constructor].
      cbn. repeat split; try reflexivity.
      subst dir. destruct (Qlt_le_dec _ _); auto.
    + rewrite length_app in Hlen. cbn [length] in Hlen.
      repeat split.
      * lia.
      * rewrite Hhead. destruct path; [discriminate | reflexivity].
      * assumption.
      * exists pl'. split; [assumption|].
        rewrite Hy. cbn [y new]. rewrite Nat2Z.inj_succ.
        unfold Z.succ. rewrite inject_Z_plus. ring.
Qed.

Lemma simulateBall_inv (startX : Q) (r : Random) :
  let path := (simulateBall cfg startX r).1 in
  length path = S (numRows cfg)
  /\ head path = Some (origin startX)
  /\ Forall (stepOK cfg) (segments path)
  /\ exists pl, last path = Some pl
                /\ (y pl == inject_Z (Z.of_nat (numRows cfg)) * stepSize cfg)%Q.
Proof.
  destruct (simulateRows_inv (numRows cfg) [origin startX] r (origin startX))
    as (Hlen & Hhead & Hall & pl & Hlast & Hy); [reflexivity | constructor |].
  repeat split; try assumption.
  exists pl. split; [assumption|]. rewrite Hy. cbn. ring.
Qed.

End SimulationFacts.

(** C5: every path returned by [simulateBall], for any starting x and any
    random draws, has [numRows + 1] vertices, starts at y = 0, ends at
    y = [numRows * stepSize], and rises by exactly [stepSize] between
    consecutive vertices. *)
Theorem simulateBall_vertical (cfg : Config) (startX : Q) (r : Random) :
  let path := (simulateBall cfg startX r).1 in
  length path = (numRows cfg + 1)%nat
  /\ (exists p0, head path = Some p0 /\ y p0 = 0%Q)
  /\ (exists pl, last path = Some pl
                 /\ (y pl == inject_Z (Z.of_nat (numRows cfg)) * stepSize cfg)%Q)
  /\ Forall (fun seg => (y seg.2 - y seg.1 == stepSize cfg)%Q) (segments path).
Proof.
  destruct (simulateBall_inv cfg startX r) as (Hlen & Hhead & Hall & Hlast).
  cbv zeta. repeat split.
  - lia.
  - exists (origin startX). split; [assumption | reflexivity].
  - assumption.
  - eapply Forall_impl; [exact Hall|].
    intros [p1 p2] (Hy & _). cbn. rewrite Hy. ring.
Qed.

(** C6: in every path returned by [simulateBall] the first vertex stores
    direction 0, and for every consecutive pair of vertices the second one
    stores direction -1 or +1 and the x-delta is [stepSize] times that
    direction, hence exactly [+stepSize] or [-stepSize]. *)
Theorem simulateBall_horizontal (cfg : Config) (startX : Q) (r : Random) :
  let path := (simulateBall cfg startX r).1 in
  (exists p0, head path = Some p0 /\ direction p0 = 0 /\ x p0 = startX)
  /\ Forall (fun seg =>
               (x seg.2 - x seg.1 == inject_Z (direction seg.2) * stepSize cfg)%Q
               /\ ((direction seg.2 = 1 /\ (x seg.2 - x seg.1 == stepSize cfg)%Q)
                   \/ (direction seg.2 = -1 /\ (x seg.2 - x seg.1 == - stepSize cfg)%Q)))
            (segments path).
Proof.
  destruct (simulateBall_inv cfg startX r) as (Hlen & Hhead & Hall & Hlast).
  cbv zeta. split.
  - exists (origin startX). repeat split. assumption.
  - eapply Forall_impl; [exact Hall|].
    intros [p1 p2] (_ & Hd & Hx). cbn [fst snd]. split.
    + rewrite Hx. ring.
    + destruct Hd as [Hd|Hd]; [right|left]; (split; [assumption|]);
        rewrite Hx, Hd; ring.
Qed.

(** ** The starting column *)

Lemma Qfloor_iff (q : Q) (z : Z) :
  Qfloor q = z <-> (inject_Z z <= q /\ q < inject_Z (z + 1))%Q.
Proof.
  split.
  - intros <-. split; [apply Qfloor_le | apply Qlt_floor].
  - intros [Hlo Hhi].
    assert (z <= Qfloor q).
    { rewrite <- (Qfloor_Z z). now apply Qfloor_resp_le. }
    assert (Qfloor q < z + 1).
    { rewrite Zlt_Qlt. eapply Qle_lt_trans; [apply Qfloor_le | exact Hhi]. }
    lia.
Qed.

Lemma startCol_floor (cfg : Config) (h : Z) (u : Q) :
  (totalCols cfg == inject_Z (2 * h))%Q ->
  (startCol cfg u == inject_Z (Qfloor (u * inject_Z (2 * h + 1)) - h))%Q.
Proof.
  intros Ht. unfold startCol, startColRange, Math_floor. cbn [fst snd].
  assert (Hw : (totalCols cfg / 2 - - totalCols cfg / 2 + 1 == inject_Z (2 * h + 1))%Q).
  { rewrite Ht, !inject_Z_plus, !inject_Z_mult. field. }
  rewrite Hw, Ht. unfold Z.sub.
  rewrite !inject_Z_plus, inject_Z_opp, inject_Z_mult. field.
Qed.

Lemma Rand_draws_simulateRows (cfg : Config) (rows : nat) :
  forall path r, draws (simulateRows cfg rows path r).2 = draws r.
Proof.
  induction rows as [|rows IH]; intros path r; [reflexivity|].
  cbn [simulateRows]. unfold mbind, Rand_bind, Math_random. now rewrite IH.
Qed.

Lemma Array_from_Forall {A} (P : A -> Prop) (I : Random -> Prop) (f : Rand A) :
  (forall r, I r -> P (f r).1 /\ I (f r).2) ->
  forall n r, I r -> Forall P (Array_from n f r).1 /\ I (Array_from n f r).2.
Proof.
  intros Hf. induction n as [|n IH]; intros r Hr.
  - cbn. split; [constructor | assumption].
  - cbn [Array_from]. unfold mbind, Rand_bind.
    destruct (Hf r Hr) as [Hp Hi]. destruct (f r) as [a r1]. cbn [fst snd] in *.
    destruct (IH r1 Hi) as [Hall Hi']. destruct (Array_from n f r1) as [rest r2].
    cbn [fst snd mret Rand_ret] in *. split; [constructor|]; assumption.
Qed.

Lemma Array_from_length {A} (f : Rand A) :
  forall n r, length (Array_from n f r).1 = n.
Proof.
  induction n as [|n IH]; intros r; [reflexivity|].
  cbn [Array_from]. unfold mbind, Rand_bind.
  destruct (f r) as [a r1]. specialize (IH r1).
  destruct (Array_from n f r1) as [rest r2]. cbn in *. now rewrite IH.
Qed.

Lemma simulateRows_random (cfg : Config) (rows : nat) :
  forall path r,
    (simulateRows cfg rows path r).2
    = {| draws := draws r; cursor := (cursor r + rows)%nat |}.
Proof.
  induction rows as [|rows IH]; intros path r.
  - cbn. destruct r as [d k]. cbn. f_equal. lia.
  - cbn [simulateRows]. unfold mbind, Rand_bind, Math_random.
    rewrite IH. cbn [draws cursor]. f_equal. lia.
Qed.

Lemma Array_from_random {A} (f : Rand A) (k : nat) :
  (forall r, (f r).2 = {| draws := draws r; cursor := (cursor r + k)%nat |}) ->
  forall n r,
    (Array_from n f r).2 = {| draws := draws r; cursor := (cursor r + n * k)%nat |}.
Proof.
  intros Hf. induction n as [|n IH]; intros r.
  - cbn. destruct r as [d c]. cbn. f_equal. lia.
  - cbn [Array_from]. unfold mbind, Rand_bind.
    pose proof (Hf r) as Hr. destruct (f r) as [a r1]. cbn [snd] in Hr. subst r1.
    pose proof (IH {| draws := draws r; cursor := (cursor r + k)%nat |}) as Hn.
    destruct (Array_from n f _) as [rest r2]. cbn [snd mret Rand_ret] in *.
    rewrite Hn. cbn [draws cursor]. f_equal. lia.
Qed.

Lemma allPaths_random (cfg : Config) (r : Random) :
  (allPaths cfg r).2
  = {| draws := draws r;
       cursor := (cursor r + numBalls cfg * (numRows cfg + 1))%nat |}.
Proof.
  unfold allPaths. apply Array_from_random. intros r0.
  unfold mbind, Rand_bind, Math_random, simulateBall.
  rewrite simulateRows_random. cbn [draws cursor]. f_equal. lia.
Qed.

(** Why the draws next to the ends of a column's interval are left out of
    the last part of the statement below: the binary64 number
    2196877867009998 / 2^52 lies below 20 / 41, but its binary64 product
    with 41 is 20. *)
Remark binary64_column_end :
  let u := PrimFloat.div 2196877867009998%float 4503599627370496%float in
  PrimFloat.mul u 41%float = 20%float
  /\ 2196877867009998 * 41 < 20 * 4503599627370496.
Proof. split; [vm_compute; reflexivity | lia]. Qed.

Lemma Array_from_lookup {A} (f : Rand A) (k : nat) :
  (forall r, (f r).2 = {| draws := draws r; cursor := (cursor r + k)%nat |}) ->
  forall n r i,
    (i < n)%nat ->
    (Array_from n f r).1 !! i
    = Some (f {| draws := draws r; cursor := (cursor r + i * k)%nat |}).1.
Proof.
  intros Hf. induction n as [|n IH]; intros r i Hi; [lia|].
  cbn [Array_from]. unfold mbind, Rand_bind.
  pose proof (Hf r) as Hr. destruct (f r) as [a r1] eqn:E. cbn [snd] in Hr. subst r1.
  pose proof (IH {| draws := draws r; cursor := (cursor r + k)%nat |}) as Hn.
  destruct (Array_from n f _) as [rest r2]. cbn [fst mret Rand_ret] in *.
  destruct i as [|i].
  - replace {| draws := draws r; cursor := (cursor r + 0 * k)%nat |} with r
      by (destruct r; cbn; f_equal; lia).
    now rewrite E.
  - cbn [lookup list_lookup]. rewrite Hn by lia. cbn [draws cursor].
    replace (cursor r + k + i * k)%nat with (cursor r + S i * k)%nat by lia.
    reflexivity.
Qed.

(** The [i]-th path of a batch starts at the column of the draw number
    [i * (numRows + 1)] of the batch: each path takes one draw for its start
    and [numRows] for its steps. *)
Lemma allPaths_start (cfg : Config) (r : Random) (i : nat) (path : list Point) :
  (allPaths cfg r).1 !! i = Some path ->
  head path
  = Some (origin (startXOf cfg (draws r (cursor r + i * (numRows cfg + 1))%nat))).
Proof.
  intros Hi.
  assert (Hlt : (i < numBalls cfg)%nat).
  { apply lookup_lt_Some in Hi. unfold allPaths in Hi.
    now rewrite Array_from_length in Hi. }
  unfold allPaths in Hi.
  rewrite (Array_from_lookup _ (numRows cfg + 1)) in Hi; [| |exact Hlt].
  - injection Hi as <-. unfold mbind, Rand_bind, Math_random. cbn [draws cursor].
    apply simulateBall_inv.
  - intros r0. unfold mbind, Rand_bind, Math_random, simulateBall.
    rewrite simulateRows_random. cbn [draws cursor]. f_equal. lia.
Qed.

(** C7: when [totalCols / 2] is a whole number [h] and the draws lie in
    [0, 1), every path of a batch starts at [k * stepSize] for an integer [k]
    with [-totalCols/2 <= k <= totalCols/2].  Every such [k] is produced: for
    each place [i] of the batch there is a draw in [0, 1) with which the
    [i]-th path starts at [k * stepSize].  The columns share the draws
    evenly: with [u] the draw that decides the start of the [i]-th path, the
    path starts at [k * stepSize] whenever [u] lies in the interval from
    [(k + h) / (2h + 1)] to [(k + h + 1) / (2h + 1)], of the same width for
    every [k], shortened by [roundingMargin] at both ends; and, unless
    [stepSize] is 0, only if [u] lies in that interval lengthened by
    [roundingMargin] at both ends. *)
Theorem startX_columns (cfg : Config) (h : Z) (r : Random) :
  0 <= h ->
  (totalCols cfg == inject_Z (2 * h))%Q ->
  unitDraws r ->
  Forall (fun path =>
            exists p0 k, head path = Some p0
                         /\ (- totalCols cfg / 2 <= inject_Z k)%Q
                         /\ (inject_Z k <= totalCols cfg / 2)%Q
                         /\ (x p0 == inject_Z k * stepSize cfg)%Q)
         (allPaths cfg r).1
  /\ (forall k i,
        (- totalCols cfg / 2 <= inject_Z k)%Q ->
        (inject_Z k <= totalCols cfg / 2)%Q ->
        (i < numBalls cfg)%nat ->
        exists u,
          (0 <= u)%Q /\ (u < 1)%Q
          /\ forall r',
               draws r' (cursor r' + i * (numRows cfg + 1))%nat = u ->
               exists path p0,
                 (allPaths cfg r').1 !! i = Some path
                 /\ head path = Some p0
                 /\ (x p0 == inject_Z k * stepSize cfg)%Q)
  /\ (forall r' i path p0 k,
        (allPaths cfg r').1 !! i = Some path ->
        head path = Some p0 ->
        let u := draws r' (cursor r' + i * (numRows cfg + 1))%nat in
        let lo := (inject_Z (k + h) / inject_Z (2 * h + 1))%Q in
        let hi := (inject_Z (k + h + 1) / inject_Z (2 * h + 1))%Q in
        ((lo + roundingMargin <= u)%Q -> (u <= hi - roundingMargin)%Q ->
         (x p0 == inject_Z k * stepSize cfg)%Q)
        /\ (~ (stepSize cfg == 0)%Q -> (x p0 == inject_Z k * stepSize cfg)%Q ->
            (lo - roundingMargin <= u)%Q /\ (u < hi + roundingMargin)%Q)).
Proof.
  intros Hh Ht Hunit.
  assert (Hw : (inject_Z 0 < inject_Z (2 * h + 1))%Q) by (rewrite <- Zlt_Qlt; lia).
  change (inject_Z 0) with 0%Q in Hw.
  assert (Hhalf : (totalCols cfg / 2 == inject_Z h)%Q).
  { rewrite Ht, inject_Z_mult. field. }
  assert (Hnhalf : (- totalCols cfg / 2 == inject_Z (- h))%Q).
  { rewrite Ht, inject_Z_opp, inject_Z_mult. field. }
  assert (Hiff : forall u k, (startCol cfg u == inject_Z k)%Q
                  <-> (inject_Z (k + h) / inject_Z (2 * h + 1) <= u
                       /\ u < inject_Z (k + h + 1) / inject_Z (2 * h + 1))%Q).
  { intros u k. rewrite (startCol_floor cfg h u Ht), inject_Z_injective.
    assert (E : Qfloor (u * inject_Z (2 * h + 1)) - h = k
                <-> Qfloor (u * inject_Z (2 * h + 1)) = k + h) by lia.
    rewrite E, Qfloor_iff.
    assert (Hne : ~ (inject_Z (2 * h + 1) == 0)%Q) by lra.
    set (W := inject_Z (2 * h + 1)) in *.
    assert (Ha : (inject_Z (k + h) / W * W == inject_Z (k + h))%Q) by (field; exact Hne).
    assert (Hb : (inject_Z (k + h + 1) / W * W == inject_Z (k + h + 1))%Q)
      by (field; exact Hne).
    split; intros [Hlo Hhi]; split.
    - apply Qle_shift_div_r; assumption.
    - apply Qlt_shift_div_l; assumption.
    - rewrite <- Ha. apply Qmult_le_compat_r; [exact Hlo | lra].
    - rewrite <- Hb. apply Qmult_lt_compat_r; assumption. }
  assert (Hrange : forall u, (0 <= u)%Q -> (u < 1)%Q ->
            exists k, - h <= k <= h /\ (startCol cfg u == inject_Z k)%Q).
  { intros u Hu0 Hu1.
    exists (Qfloor (u * inject_Z (2 * h + 1)) - h).
    split; [|apply (startCol_floor cfg h u Ht)].
    assert (0 <= Qfloor (u * inject_Z (2 * h + 1))).
    { rewrite <- (Qfloor_Z 0). apply Qfloor_resp_le.
      apply Qmult_le_0_compat; [exact Hu0 | lra]. }
    assert (Qfloor (u * inject_Z (2 * h + 1)) < 2 * h + 1).
    { rewrite Zlt_Qlt. eapply Qle_lt_trans; [apply Qfloor_le|].
      rewrite <- (Qmult_1_l (inject_Z (2 * h + 1))) at 2.
      apply Qmult_lt_compat_r; assumption. }
    lia. }
  assert (Hmargin : (0 < roundingMargin)%Q) by reflexivity.
  split; [|split].
  - apply (Array_from_Forall _ unitDraws); [|exact Hunit].
    intros r0 Hr0. unfold mbind, Rand_bind, Math_random.
    set (u := draws r0 (cursor r0)).
    set (r1 := {| draws := draws r0; cursor := S (cursor r0) |}).
    split.
    + destruct (simulateBall_inv cfg (startXOf cfg u) r1) as (_ & Hhead & _).
      destruct (Hrange u) as (k & Hk & Hcol); [apply Hr0 | apply Hr0 |].
      exists (origin (startXOf cfg u)), k.
      rewrite Hhalf, Hnhalf, <- !Zle_Qle.
      repeat split; [assumption | lia | lia |].
      cbn [x origin]. unfold startXOf. now rewrite Hcol.
    + intros k. unfold simulateBall. rewrite Rand_draws_simulateRows. apply Hr0.
  - intros k i Hlo Hhi Hi. rewrite Hnhalf in Hlo. rewrite Hhalf in Hhi.
    rewrite <- Zle_Qle in Hlo, Hhi.
    (* the middle of the interval of the column *)
    set (u := (inject_Z (2 * (k + h) + 1) / inject_Z (2 * (2 * h + 1)))%Q).
    assert (Hw2 : (0 < inject_Z (2 * (2 * h + 1)))%Q).
    { change 0%Q with (inject_Z 0). rewrite <- Zlt_Qlt. lia. }
    assert (Hne : ~ (inject_Z (2 * h + 1) == 0)%Q) by lra.
    assert (Elo : (inject_Z (k + h) / inject_Z (2 * h + 1)
                   == inject_Z (2 * (k + h)) / inject_Z (2 * (2 * h + 1)))%Q).
    { rewrite !(inject_Z_mult 2). field. exact Hne. }
    assert (Ehi : (inject_Z (k + h + 1) / inject_Z (2 * h + 1)
                   == inject_Z (2 * (k + h) + 2) / inject_Z (2 * (2 * h + 1)))%Q).
    { replace (2 * (k + h) + 2) with (2 * (k + h + 1)) by lia.
      rewrite !(inject_Z_mult 2). field. exact Hne. }
    exists u. split; [|split].
    + apply Qle_shift_div_l; [exact Hw2|].
      rewrite Qmult_0_l. change 0%Q with (inject_Z 0). rewrite <- Zle_Qle. lia.
    + apply Qlt_shift_div_r; [exact Hw2|]. rewrite Qmult_1_l, <- Zlt_Qlt. lia.
    + intros r' Hu.
      destruct (lookup_lt_is_Some_2 (allPaths cfg r').1 i) as [path Hpath].
      { unfold allPaths. now rewrite Array_from_length. }
      exists path, (origin (startXOf cfg u)).
      split; [exact Hpath|]. split.
      * rewrite (allPaths_start cfg r' i path Hpath). now rewrite Hu.
      * cbn [x origin]. unfold startXOf.
        rewrite (proj2 (Hiff u k)); [reflexivity|].
        rewrite Elo, Ehi. unfold u. split.
        -- apply Qmult_le_r; [now apply Qinv_lt_0_compat|]. rewrite <- Zle_Qle. lia.
        -- apply Qmult_lt_r; [now apply Qinv_lt_0_compat|]. rewrite <- Zlt_Qlt. lia.
  - intros r' i path p0 k Hpath Hhead u lo hi.
    rewrite (allPaths_start cfg r' i path Hpath) in Hhead.
    injection Hhead as <-. fold u. cbn [x origin]. unfold startXOf.
    pose proof (Hiff u k) as Hk. fold lo hi in Hk. clearbody lo hi u.
    split.
    + intros Hlo Hhi. rewrite (proj2 Hk); [reflexivity|]. split; lra.
    + intros Hstep Hx. apply Qmult_inj_r in Hx; [|exact Hstep].
      destruct (proj1 Hk Hx). split; lra.
Qed.

Lemma sampleRandom_unit : unitDraws sampleRandom.
Proof. intros k. cbn. destruct (Nat.even k); split; lra. Qed.

Lemma startX_columns_witness :
  Forall (fun path =>
            exists p0 k, head path = Some p0
                         /\ (- totalCols GridCanvas / 2 <= inject_Z k)%Q
                         /\ (inject_Z k <= totalCols GridCanvas / 2)%Q
                         /\ (x p0 == inject_Z k * stepSize GridCanvas)%Q)
         (allPaths GridCanvas sampleRandom).1.
Proof.
  apply (startX_columns GridCanvas 20 sampleRandom).
  - lia.
  - reflexivity.
  - exact sampleRandom_unit.
Defined.

(** ** Recentering *)

(** C8: the recentering step maps every vertex by
    x |-> x - ((totalCols - visibleCols) / 2) * stepSize + canvasWidth / 2,
    leaves y and direction unchanged, and keeps the number of paths, the
    length of every path and the order of the vertices. *)
Theorem recenter_frame (cfg : Config) (all : list (list Point)) :
  length (recenter cfg all) = length all
  /\ Forall2
       (fun path' path =>
          length path' = length path
          /\ Forall2
               (fun p' p =>
                  x p' = (x p - (totalCols cfg - visibleCols cfg) / 2 * stepSize cfg
                          + canvasWidth cfg / 2)%Q
                  /\ y p' = y p
                  /\ direction p' = direction p)
               path' path)
       (recenter cfg all) all.
Proof.
  unfold recenter. split; [apply length_map|].
  induction all as [|path all IH]; cbn [map]; constructor; [|exact IH].
  split; [apply length_map|].
  clear IH. induction path as [|p path IHp]; cbn [map]; constructor; [|exact IHp].
  repeat split.
Qed.

(** The batch that [regenerate] hands to its interval is the recentered
    simulation. *)
Lemma generate_batch (cfg : Config) (r : Random) :
  exists r3, draws r3 = draws r
             /\ (generate cfg r).1.2 = recenter cfg (allPaths cfg r3).1.
Proof.
  cbv [generate mbind Rand_bind randomElement Math_random mret Rand_ret].
  eexists {| draws := draws r; cursor := S (S (S (cursor r))) |}.
  split; [reflexivity|].
  destruct (allPaths cfg _) as [all r4]. reflexivity.
Qed.

(** ** The imperative handle *)

(** C9: [getVisibleCanvasWidth] returns 0.4 times the configured canvas
    width whatever the state of the component, and returns the component
    unchanged. *)
Theorem getVisibleCanvasWidth_pure (cfg : Config) (c : Component) :
  ((getVisibleCanvasWidth cfg c).1 == (4 # 10) * canvasWidth cfg)%Q
  /\ (getVisibleCanvasWidth cfg c).2 = c
  /\ forall c', (getVisibleCanvasWidth cfg c').1 = (getVisibleCanvasWidth cfg c).1.
Proof.
  unfold getVisibleCanvasWidth. cbn [fst snd].
  split; [ring|]. split; reflexivity.
Qed.

Lemma getVisibleCanvasWidth_configured (c : Component) :
  ((getVisibleCanvasWidth GridCanvas c).1 == 360)%Q
  /\ ((getVisibleCanvasWidth PachinkoCanvas c).1 == 360)%Q.
Proof. split; reflexivity. Qed.

(** In binary64 arithmetic too, 900 times the double nearest to 0.4 is
    exactly 360. *)
Remark binary64_width : PrimFloat.mul 900%float 0x1.999999999999ap-2%float = 360%float.
Proof. reflexivity. Qed.

(** ** The ratios the drawing effect computes *)

Lemma segments_map (f : Point -> Point) (path : list Point) :
  segments (map f path) = map (fun seg => (f seg.1, f seg.2)) (segments path).
Proof.
  induction path as [|a [|b rest] IH]; [reflexivity | reflexivity |].
  change (segments (map f (a :: b :: rest)))
    with ((f a, f b) :: segments (map f (b :: rest))).
  rewrite IH. reflexivity.
Qed.

(** The heights of the two ends of the [j]-th segment of a walk. *)
Lemma segments_rows (cfg : Config) (path : list Point) :
  forall (p0 : Point) (base : nat),
    head path = Some p0 ->
    (y p0 == inject_Z (Z.of_nat base) * stepSize cfg)%Q ->
    Forall (stepOK cfg) (segments path) ->
    Forall (fun seg =>
              exists j : nat,
                (base <= j)%nat /\ (j + 1 < base + length path)%nat
                /\ (y seg.1 == inject_Z (Z.of_nat j) * stepSize cfg)%Q
                /\ (y seg.2 == inject_Z (Z.of_nat (j + 1)) * stepSize cfg)%Q)
           (segments path).
Proof.
  induction path as [|a rest IH]; intros p0 base Hhead Hy Hsteps; [constructor|].
  injection Hhead as <-.
  destruct rest as [|b rest]; [constructor|].
  change (segments (a :: b :: rest)) with ((a, b) :: segments (b :: rest)) in *.
  apply Forall_cons in Hsteps as [(Hab & _) Hsteps].
  assert (Hb : (y b == inject_Z (Z.of_nat (base + 1)) * stepSize cfg)%Q).
  { rewrite Hab, Hy, Nat2Z.inj_add, inject_Z_plus. cbn. ring. }
  constructor.
  - exists base. cbn [fst snd length]. repeat split; [lia | lia | exact Hy | exact Hb].
  - eapply Forall_impl; [exact (IH b (base + 1)%nat eq_refl Hb Hsteps)|].
    intros seg (j & Hlo & Hhi & H1 & H2). exists j.
    cbn [length] in *. repeat split; [lia | lia | exact H1 | exact H2].
Qed.

Lemma element_in_range {A} (arr : list A) (i : Z) :
  0 <= i < Z.of_nat (length arr) ->
  exists a, element arr i = Some a /\ arr !! Z.to_nat i = Some a.
Proof.
  intros Hi. unfold element. destruct (Z.ltb_spec i 0); [lia|].
  destruct (lookup_lt_is_Some_2 arr (Z.to_nat i)) as [a Ha]; [lia|].
  exists a. split; exact Ha.
Qed.

(** Inside the ratio range [0, 1) the two control colours read by
    [interpolateColor] exist, and it returns a colour. *)
Lemma interpolateColor_in_range (gradient : list string) (ratio : Q) :
  (2 <= length gradient)%nat ->
  (0 <= ratio)%Q -> (ratio < 1)%Q ->
  let i := Math_floor (ratio * inject_Z (Z.of_nat (length gradient) - 1)) in
  0 <= i /\ i + 1 <= Z.of_nat (length gradient) - 1
  /\ exists c1 c2 color,
       gradient !! Z.to_nat i = Some c1
       /\ gradient !! Z.to_nat (i + 1) = Some c2
       /\ interpolateColor gradient ratio = Normal color.
Proof.
  intros Hlen H0 H1 i.
  set (n := Z.of_nat (length gradient) - 1) in *.
  assert (Hn : (inject_Z 0 < inject_Z n)%Q) by (rewrite <- Zlt_Qlt; lia).
  change (inject_Z 0) with 0%Q in Hn.
  assert (Hi0 : 0 <= i).
  { subst i. unfold Math_floor. rewrite <- (Qfloor_Z 0). apply Qfloor_resp_le.
    apply Qmult_le_0_compat; [exact H0 | lra]. }
  assert (Hi1 : i < n).
  { subst i. unfold Math_floor. rewrite Zlt_Qlt.
    eapply Qle_lt_trans; [apply Qfloor_le|].
    rewrite <- (Qmult_1_l (inject_Z n)) at 2.
    apply Qmult_lt_compat_r; assumption. }
  split; [exact Hi0|]. split; [lia|].
  destruct (element_in_range gradient i) as (c1 & E1 & L1); [lia|].
  destruct (element_in_range gradient (i + 1)) as (c2 & E2 & L2); [lia|].
  exists c1, c2. unfold interpolateColor. fold n. fold i. rewrite E1, E2.
  cbn [deref mbind Completion_bind].
  destruct (hexToRgb c1) as [[r1 g1] b1], (hexToRgb c2) as [[r2 g2] b2].
  eexists. repeat split; [exact L1 | exact L2].
Qed.

Lemma fortyRows_GridCanvas : fortyRows GridCanvas.
Proof. repeat split. Qed.

Lemma fortyRows_PachinkoCanvas : fortyRows PachinkoCanvas.
Proof. repeat split. Qed.

Lemma batch_inRange (cfg : Config) (r : Random) :
  fortyRows cfg ->
  Forall (inRange cfg) (recenter cfg (allPaths cfg r).1).
Proof.
  intros (Hrows & Hstep & Hheight). unfold recenter. apply Forall_map.
  refine (proj1 (Array_from_Forall _ (fun _ => True) _ _ (numBalls cfg) r I)).
  intros r0 _. split; [|exact I].
  unfold mbind, Rand_bind, Math_random.
  set (u := draws r0 (cursor r0)).
  set (r1 := {| draws := draws r0; cursor := S (cursor r0) |}).
  destruct (simulateBall_inv cfg (startXOf cfg u) r1)
    as (Hlength & Hhead & Hsteps & _).
  assert (Hy0 : (y (origin (startXOf cfg u)) == inject_Z (Z.of_nat 0) * stepSize cfg)%Q)
    by (cbn; ring).
  unfold inRange. rewrite segments_map. apply Forall_map.
  eapply Forall_impl; [exact (segments_rows cfg _ _ 0%nat Hhead Hy0 Hsteps)|].
  intros [p1 p2] (j & _ & Hj & Hy1 & Hy2).
  rewrite Hlength, Hrows in Hj. cbn [fst snd].
  assert (Hratio : (baseRatio cfg (recenterPoint cfg p1) (recenterPoint cfg p2)
                    == (2 * inject_Z (Z.of_nat j) + 1) * (1 # 80))%Q).
  { unfold baseRatio. cbn [y recenterPoint].
    rewrite Hy1, Hy2, Nat2Z.inj_add, inject_Z_plus, Hstep, Hheight.
    change (inject_Z (Z.of_nat 1)) with 1%Q. field. }
  assert (HJ0 : (inject_Z 0 <= inject_Z (Z.of_nat j))%Q) by (rewrite <- Zle_Qle; lia).
  assert (HJ1 : (inject_Z (Z.of_nat j) <= inject_Z 39)%Q) by (rewrite <- Zle_Qle; lia).
  change (inject_Z 0) with 0%Q in HJ0. change (inject_Z 39) with 39%Q in HJ1.
  rewrite Hratio. split; lra.
Qed.

(** C10: under the constants of [GridCanvas] (40 rows of 30 pixels on a
    canvas 1200 pixels high), for every segment of every path of a simulated
    and recentered batch the ratio passed to [interpolateColor] lies in
    [1/80, 79/80]; so, for a gradient of at least two colours, the indices
    [i] and [i + 1] it reads are inside the gradient and it does not
    throw. *)
Theorem draw_ratio_in_range (r : Random) (gradient : list string) :
  (2 <= length gradient)%nat ->
  Forall
    (fun path =>
       Forall
         (fun seg =>
            let ratio := baseRatio GridCanvas seg.1 seg.2 in
            let i := Math_floor (ratio * inject_Z (Z.of_nat (length gradient) - 1)) in
            ((1 # 80 <= ratio)%Q /\ (ratio <= 79 # 80)%Q)
            /\ 0 <= i /\ i + 1 <= Z.of_nat (length gradient) - 1
            /\ exists c1 c2 color,
                 gradient !! Z.to_nat i = Some c1
                 /\ gradient !! Z.to_nat (i + 1) = Some c2
                 /\ interpolateColor gradient ratio = Normal color)
         (segments path))
    (recenter GridCanvas (allPaths GridCanvas r).1).
Proof.
  intros Hlen.
  eapply Forall_impl; [exact (batch_inRange GridCanvas r fortyRows_GridCanvas)|].
  intros path Hpath. eapply Forall_impl; [exact Hpath|].
  intros seg [Hlo Hhi]. cbv zeta. split; [split; assumption|].
  apply interpolateColor_in_range; [exact Hlen | lra | lra].
Qed.

Lemma draw_ratio_in_range_witness :
  Forall
    (fun path =>
       Forall
         (fun seg =>
            let gradient := ["#00ffe5"; "#ff00ff"; "#ffff00"; "#00ff00"] in
            let ratio := baseRatio GridCanvas seg.1 seg.2 in
            let i := Math_floor (ratio * inject_Z (Z.of_nat (length gradient) - 1)) in
            ((1 # 80 <= ratio)%Q /\ (ratio <= 79 # 80)%Q)
            /\ 0 <= i /\ i + 1 <= Z.of_nat (length gradient) - 1
            /\ exists c1 c2 color,
                 gradient !! Z.to_nat i = Some c1
                 /\ gradient !! Z.to_nat (i + 1) = Some c2
                 /\ interpolateColor gradient ratio = Normal color)
         (segments path))
    (recenter GridCanvas (allPaths GridCanvas sampleRandom).1).
Proof.
  apply (draw_ratio_in_range sampleRandom ["#00ffe5"; "#ff00ff"; "#ffff00"; "#00ff00"]).
  cbn. lia.
Defined.

(** ** The reveal *)

Section Reveal.

Variable cfg : Config.

Lemma regenerate_fields (c : Component) :
  let c' := regenerate cfg c in
  visiblePaths c' = []
  /\ intervals c'
     = <[nextInterval c := {| paths := (generate cfg (random c)).1.2; index := 0 |}]>
         (intervals c)
  /\ nextInterval c' = S (nextInterval c)
  /\ notifications c' = notifications c ++ [AnimationStart (nextInterval c)].
Proof.
  unfold regenerate.
  destruct (generate cfg (random c)) as [[[[g t] b] batch] r].
  repeat split.
Qed.

Lemma generate_length (r : Random) : length (generate cfg r).1.2 = numBalls cfg.
Proof.
  destruct (generate_batch cfg r) as (r3 & _ & ->).
  unfold recenter, allPaths. rewrite length_map. apply Array_from_length.
Qed.

Lemma tick_Revealing log0 id batch j i (c : Component) :
  Revealing log0 id batch j c ->
  Revealing log0 id batch (j + (if decide (i = id) then 1 else 0)) (tick i c).
Proof.
  intros [Hv [(Hj & Hi & Hn) | (Hj & Hi & Hn)]]; unfold tick; rewrite Hi.
  - destruct (decide (i = id)) as [->|Hne].
    + rewrite lookup_singleton_eq. cbn [paths index]. rewrite Nat.add_1_r.
      destruct (batch !! j) as [path|] eqn:E.
      * split; cbn [visiblePaths intervals notifications].
        -- rewrite Hv. symmetry. now apply take_S_r.
        -- left. apply lookup_lt_Some in E.
           rewrite insert_singleton_eq. repeat split; [lia | exact Hn].
      * apply lookup_ge_None in E.
        split; cbn [visiblePaths intervals notifications].
        -- rewrite Hv, !take_ge by lia. reflexivity.
        -- right. rewrite delete_singleton_eq, Hn, <- app_assoc.
           repeat split. lia.
    + rewrite lookup_singleton_ne by congruence. rewrite Nat.add_0_r.
      split; [exact Hv | left; repeat split; assumption].
  - rewrite lookup_empty. split.
    + rewrite Hv, !take_ge by lia. reflexivity.
    + right. repeat split; [lia | assumption | assumption].
Qed.

Lemma run_Revealing log0 id batch (ticks : list nat) :
  forall j c,
    Revealing log0 id batch j c ->
    Revealing log0 id batch (j + firings id (map Tick ticks))
      (run cfg c (map Tick ticks)).
Proof.
  induction ticks as [|i ticks IH]; intros j c H.
  - cbn. now rewrite Nat.add_0_r.
  - cbn [map firings run foldl step]. rewrite Nat.add_assoc.
    apply IH. now apply tick_Revealing.
Qed.

Lemma regenerate_Revealing (c : Component) :
  intervals c = ∅ ->
  Revealing (notifications c) (nextInterval c) (generate cfg (random c)).1.2 0
    (regenerate cfg c).
Proof.
  intros Hc. destruct (regenerate_fields c) as (Hv & Hi & _ & Hn).
  split; [exact Hv|]. left. rewrite Hi, Hc, insert_empty.
  repeat split; [lia | exact Hn].
Qed.

End Reveal.

(** C4 (as amended): in a generation started while no earlier interval is
    live and followed by firings only, after any
    sequence of firings the revealed paths are the first [k] paths of the
    batch, [k] being the number of firings of the generation's interval
    (one path per firing, in batch order); the length never decreases; while
    [k] is at most [numBalls] the interval is live and no animation end was
    sent; the firing that finds the batch exhausted clears the interval and
    sends the animation end, with exactly [numBalls] paths revealed. *)
Theorem reveal_is_prefix (cfg : Config) (c : Component) (ticks : list nat) :
  intervals c = ∅ ->
  let id := nextInterval c in
  let batch := (generate cfg (random c)).1.2 in
  let c' := run cfg (regenerate cfg c) (map Tick ticks) in
  let k := firings id (map Tick ticks) in
  length batch = numBalls cfg
  /\ visiblePaths c' = take k batch
  /\ (forall more,
        (length (visiblePaths c')
         <= length (visiblePaths (run cfg c' (map Tick more))))%nat)
  /\ ((k <= numBalls cfg)%nat ->
      length (visiblePaths c') = k
      /\ intervals c' = {[ id := {| paths := batch; index := k |} ]}
      /\ notifications c' = notifications c ++ [AnimationStart id])
  /\ ((numBalls cfg < k)%nat ->
      visiblePaths c' = batch
      /\ length (visiblePaths c') = numBalls cfg
      /\ intervals c' = ∅
      /\ notifications c' = notifications c ++ [AnimationStart id; AnimationEnd id]).
Proof.
  intros Hc id batch c' k.
  assert (Hlen : length batch = numBalls cfg) by apply generate_length.
  assert (Hrun : forall l, Revealing (notifications c) id batch
                             (firings id (map Tick l))
                             (run cfg (regenerate cfg c) (map Tick l))).
  { intros l. apply (run_Revealing cfg _ _ _ l 0%nat).
    now apply regenerate_Revealing. }
  destruct (Hrun ticks) as [Hv Hcases]. fold c' k in Hv, Hcases.
  split; [exact Hlen|]. split; [exact Hv|]. split; [|split].
  - intros more.
    destruct (Hrun (ticks ++ more)) as [Hv' _].
    unfold c', run in *. rewrite map_app, foldl_app in Hv'.
    rewrite Hv', Hv, !length_take.
    assert (firings id (map Tick ticks) <= firings id (map Tick (ticks ++ more)))%nat.
    { clear. induction ticks as [|i ticks IH]; cbn [app map firings]; lia. }
    rewrite map_app in H. fold k in H. lia.
  - intros Hk. destruct Hcases as [(_ & Hi & Hn) | (Hj & _)]; [|lia].
    rewrite Hv, length_take. repeat split; [lia | exact Hi | exact Hn].
  - intros Hk. destruct Hcases as [(Hj & _) | (_ & Hi & Hn)]; [lia|].
    rewrite Hv, take_ge by lia. repeat split; [exact Hlen | exact Hi | exact Hn].
Qed.

Lemma reveal_is_prefix_witness :
  visiblePaths
    (run GridCanvas (regenerate GridCanvas (mount GridCanvas sampleRandom))
       (map Tick [1; 1; 1]%nat))
  = take (firings (nextInterval (mount GridCanvas sampleRandom)) (map Tick [1; 1; 1]%nat))
      (generate GridCanvas (random (mount GridCanvas sampleRandom))).1.2.
Proof.
  apply (reveal_is_prefix GridCanvas (mount GridCanvas sampleRandom) [1; 1; 1]%nat).
  reflexivity.
Defined.

(** C4 fails as stated, for a generation that starts while the interval of
    the one before is live.  In [GridCanvas], after two calls of
    [regenerate] and a firing of the first interval, the canvas shows one
    path although the interval of the second generation has not fired, and
    that path is the first of the first batch, which starts elsewhere than
    the first path of the second batch: what is shown is not a prefix of the
    batch of the second generation.  And when the two generations have both
    run to their end, [2 * numBalls] paths are revealed, with both intervals
    cleared and both animation ends sent. *)
Lemma reveal_is_prefix_counterexample :
  let c0 := mount GridCanvas sampleRandom in
  let c1 := regenerate GridCanvas c0 in
  let c2 := run GridCanvas c1 [Regenerate; Tick 1] in
  let done := run GridCanvas c0 ([Regenerate; Regenerate] ++ repeat (Tick 1) 101
                                  ++ repeat (Tick 2) 101) in
  (intervals c1 = ∅ -> False)
  /\ (exists batch1 batch2,
        intervals c2 = {[ 1%nat := {| paths := batch1; index := 1 |};
                          2%nat := {| paths := batch2; index := 0 |} ]}
        /\ batch2 = (generate GridCanvas (random c1)).1.2
        /\ firings (nextInterval c1) [Tick 1] = 0%nat
        /\ visiblePaths c2 = take 1 batch1
        /\ (forall k, visiblePaths c2 <> take k batch2))
  /\ (intervals done = ∅
      /\ notifications done
         = [AnimationStart 1; AnimationStart 2; AnimationEnd 1; AnimationEnd 2]
      /\ length (visiblePaths done) = 200%nat
      /\ numBalls GridCanvas = 100%nat).
Proof.
  cbv zeta. split; [|split].
  - vm_compute. discriminate.
  - exists (generate GridCanvas sampleRandom).1.2,
      (generate GridCanvas
         (random (regenerate GridCanvas (mount GridCanvas sampleRandom)))).1.2.
    split; [vm_compute; reflexivity|]. split; [reflexivity|].
    split; [reflexivity|]. split; [vm_compute; reflexivity|].
    intros [|k] H.
    + vm_compute in H. discriminate H.
    + apply (f_equal (fun l => x <$> (head l ≫= head))) in H.
      vm_compute in H. discriminate H.
  - vm_compute. repeat split.
Qed.

(** ** Overlapping generations *)

Section Overlap.

Variable cfg : Config.

Lemma tick_fresh (i : nat) (c : Component) : fresh c -> fresh (tick i c).
Proof.
  intros Hc k. unfold tick.
  destruct (intervals c !! i) as [rv|] eqn:Ei; [|apply Hc].
  destruct (paths rv !! index rv); cbn [intervals nextInterval].
  - rewrite lookup_insert_is_Some. intros [<-|[_ Hk]]; [|now apply Hc].
    apply Hc. now rewrite Ei.
  - rewrite lookup_delete_is_Some. intros [_ Hk]. now apply Hc.
Qed.

Lemma regenerate_fresh (c : Component) : fresh c -> fresh (regenerate cfg c).
Proof.
  intros Hc k. destruct (regenerate_fields cfg c) as (_ & -> & -> & _).
  rewrite lookup_insert_is_Some. intros [<-|[_ Hk]]; [lia|].
  specialize (Hc k Hk). lia.
Qed.

Lemma step_fresh (c : Component) (e : Event) : fresh c -> fresh (step cfg c e).
Proof. destruct e; [apply regenerate_fresh | apply tick_fresh]. Qed.

Lemma fresh_next (c : Component) : fresh c -> intervals c !! nextInterval c = None.
Proof.
  intros Hc. destruct (intervals c !! nextInterval c) eqn:E; [|reflexivity].
  assert (nextInterval c < nextInterval c)%nat by (apply Hc; now rewrite E). lia.
Qed.

Lemma regenerate_keeps (c : Component) (i : nat) (rv : Reveal) :
  fresh c -> intervals c !! i = Some rv -> intervals (regenerate cfg c) !! i = Some rv.
Proof.
  intros Hc Hi. destruct (regenerate_fields cfg c) as (_ & -> & _).
  rewrite lookup_insert_ne; [exact Hi|].
  intros <-. rewrite (fresh_next c Hc) in Hi. discriminate.
Qed.

Lemma tick_keeps_other (c : Component) (i j : nat) :
  j <> i -> intervals (tick j c) !! i = intervals c !! i.
Proof.
  intros Hne. unfold tick.
  destruct (intervals c !! j) as [rv|]; [|reflexivity].
  destruct (paths rv !! index rv); cbn [intervals].
  - now apply lookup_insert_ne.
  - now apply lookup_delete_ne.
Qed.

Lemma step_notifications (c : Component) (e : Event) :
  exists sent, notifications (step cfg c e) = notifications c ++ sent.
Proof.
  destruct e as [|i]; cbn [step].
  - destruct (regenerate_fields cfg c) as (_ & _ & _ & ->). eauto.
  - unfold tick. destruct (intervals c !! i) as [rv|].
    + destruct (paths rv !! index rv); cbn [notifications]; [exists []|eauto].
      now rewrite app_nil_r.
    + exists []. now rewrite app_nil_r.
Qed.

Lemma run_notifications (events : list Event) :
  forall (c : Component) (n : Notification),
    n ∈ notifications c -> n ∈ notifications (run cfg c events).
Proof.
  induction events as [|e events IH]; intros c n Hn; [exact Hn|].
  cbn [run foldl]. apply IH.
  destruct (step_notifications c e) as [sent ->].
  apply elem_of_app. now left.
Qed.

(** A live interval sends its animation end once it has fired more often
    than it has paths left, whatever else happens in between. *)
Lemma live_interval_ends (first : nat) (events : list Event) :
  forall (c : Component) (rv : Reveal),
    fresh c ->
    intervals c !! first = Some rv ->
    (length (paths rv) - index rv < firings first events)%nat ->
    AnimationEnd first ∈ notifications (run cfg c events).
Proof.
  induction events as [|e events IH]; intros c rv Hc Hlive Hcount.
  - cbn in Hcount. lia.
  - cbn [run foldl]. destruct e as [|i].
    + cbn [firings] in Hcount. cbn [step].
      apply (IH _ rv); [now apply regenerate_fresh | now apply regenerate_keeps | exact Hcount].
    + cbn [firings step] in *. destruct (decide (i = first)) as [->|Hne].
      * pose proof (tick_fresh first c Hc) as Hfresh.
        revert Hfresh. unfold tick. rewrite Hlive.
        destruct (paths rv !! index rv) as [path|] eqn:E; intros Hfresh.
        -- apply lookup_lt_Some in E.
           eapply IH; [exact Hfresh | cbn [intervals]; apply lookup_insert_eq |].
           cbn [paths index]. lia.
        -- apply run_notifications. cbn [notifications].
           apply elem_of_app. right. apply list_elem_of_singleton. reflexivity.
      * apply (IH _ rv); [now apply tick_fresh | | cbn in Hcount; exact Hcount].
        rewrite tick_keeps_other by exact Hne. exact Hlive.
Qed.

End Overlap.

(** C1 (as amended): [regenerate] cancels no interval.  When it is called
    while the interval [first] of an earlier generation is still live, that
    interval stays live with its batch and position unchanged next to the
    new one, so that one more interval is live than before; and the earlier
    generation's animation end is sent as soon as [first] has fired more
    often than it had paths left, whatever calls and firings come in
    between. *)
Theorem regenerate_keeps_running_reveal
    (cfg : Config) (c : Component) (first : nat) (rv : Reveal) :
  fresh c ->
  intervals c !! first = Some rv ->
  let c' := regenerate cfg c in
  intervals c' !! first = Some rv
  /\ nextInterval c <> first
  /\ intervals c' !! nextInterval c
     = Some {| paths := (generate cfg (random c)).1.2; index := 0 |}
  /\ size (intervals c') = S (size (intervals c))
  /\ forall events,
       (length (paths rv) - index rv < firings first events)%nat ->
       AnimationEnd first ∈ notifications (run cfg c' events).
Proof.
  intros Hc Hlive c'.
  pose proof (fresh_next c Hc) as Hnext.
  destruct (regenerate_fields cfg c) as (_ & Hi & _).
  split; [now apply regenerate_keeps|].
  split; [intros E; rewrite E, Hlive in Hnext; discriminate|].
  split; [subst c'; rewrite Hi; apply lookup_insert_eq|].
  split; [subst c'; rewrite Hi; now apply map_size_insert_None|].
  intros events Hcount.
  apply (live_interval_ends cfg first events c' rv);
    [now apply regenerate_fresh | now apply regenerate_keeps | exact Hcount].
Qed.

(** C1 fails as stated: on [GridCanvas], a second [regenerate] after one
    path of the first generation has been revealed leaves two intervals
    live, the first generation's among them; 100 further firings of that
    interval append its 99 remaining paths and send its animation end. *)
Lemma regenerate_twice_counterexample :
  let c2 := run GridCanvas (mount GridCanvas sampleRandom)
              [Regenerate; Tick 1; Regenerate] in
  let c3 := run GridCanvas c2 (repeat (Tick 1) 100) in
  size (intervals c2) = 2%nat
  /\ index <$> intervals c2 !! 1%nat = Some 1%nat
  /\ index <$> intervals c2 !! 2%nat = Some 0%nat
  /\ notifications c2 = [AnimationStart 1; AnimationStart 2]
  /\ length (visiblePaths c3) = 99%nat
  /\ notifications c3 = [AnimationStart 1; AnimationStart 2; AnimationEnd 1].
Proof.
  vm_compute. repeat split.
Qed.

Lemma regenerate_keeps_running_reveal_witness :
  let c := run GridCanvas (mount GridCanvas sampleRandom) [Regenerate; Tick 1] in
  size (intervals (regenerate GridCanvas c)) = S (size (intervals c)).
Proof.
  cbv zeta.
  apply (regenerate_keeps_running_reveal GridCanvas
           (run GridCanvas (mount GridCanvas sampleRandom) [Regenerate; Tick 1]) 1%nat
           {| paths := (generate GridCanvas sampleRandom).1.2; index := 1 |}).
  - apply step_fresh, step_fresh. intros i [rv Hi]. discriminate Hi.
  - vm_compute. reflexivity.
Defined.

(** ** The drawing effect on reachable states *)

Section Drawing.

Variable cfg : Config.

Lemma randomElement_unit {A} (arr : list A) (u : Q) :
  (0 <= u)%Q -> (u < 1)%Q -> arr <> [] ->
  exists a, element arr (Math_floor (u * inject_Z (Z.of_nat (length arr)))) = Some a
            /\ a ∈ arr.
Proof.
  intros H0 H1 Harr.
  assert (Hlen : 0 < Z.of_nat (length arr)) by (destruct arr; [congruence | cbn; lia]).
  assert (HL : (0 < inject_Z (Z.of_nat (length arr)))%Q).
  { change 0%Q with (inject_Z 0). now rewrite <- Zlt_Qlt. }
  set (L := Z.of_nat (length arr)) in *.
  assert (0 <= Math_floor (u * inject_Z L)).
  { unfold Math_floor. rewrite <- (Qfloor_Z 0). apply Qfloor_resp_le.
    apply Qmult_le_0_compat; [exact H0 | lra]. }
  assert (Math_floor (u * inject_Z L) < L).
  { unfold Math_floor. rewrite Zlt_Qlt.
    eapply Qle_lt_trans; [apply Qfloor_le|].
    rewrite <- (Qmult_1_l (inject_Z L)) at 2.
    apply Qmult_lt_compat_r; assumption. }
  destruct (element_in_range arr (Math_floor (u * inject_Z L))) as (a & Ea & La); [lia|].
  exists a. split; [exact Ea|]. eapply list_elem_of_lookup_2. exact La.
Qed.

Lemma allPaths_draws (r : Random) : draws (allPaths cfg r).2 = draws r.
Proof.
  refine (proj2 (Array_from_Forall (fun _ => True) (fun r' => draws r' = draws r)
                   _ _ (numBalls cfg) r eq_refl)).
  intros r0 Hr0. split; [exact I|].
  unfold mbind, Rand_bind, Math_random, simulateBall.
  rewrite Rand_draws_simulateRows. exact Hr0.
Qed.

Lemma generate_scheme (r : Random) :
  unitDraws r ->
  exists g t,
    (generate cfg r).1.1.1.1 = Some g /\ (2 <= length g)%nat
    /\ (generate cfg r).1.1.1.2 = Some t
    /\ draws (generate cfg r).2 = draws r.
Proof.
  intros Hr.
  destruct (randomElement_unit (map snd gradients) (draws r (cursor r)))
    as (g & Eg & Hg); [apply Hr | apply Hr | discriminate |].
  destruct (randomElement_unit tintOptions (draws r (S (cursor r))))
    as (t & Et & _); [apply Hr | apply Hr | discriminate |].
  exists g, t.
  cbv [generate mbind Rand_bind randomElement Math_random mret Rand_ret].
  cbn [draws cursor].
  pose proof (allPaths_draws {| draws := draws r; cursor := S (S (S (cursor r))) |}) as Hd.
  destruct (allPaths cfg _) as [all r4]. cbn [fst snd] in *.
  repeat split; [exact Eg | | exact Et | exact Hd].
  cbn in Hg. rewrite !elem_of_cons in Hg.
  destruct Hg as [->|[->|[->|Hg]]]; [cbn; lia ..|].
  now apply elem_of_nil in Hg.
Qed.

Lemma regenerate_scheme (c : Component) :
  let c' := regenerate cfg c in
  selectedGradient c' = (generate cfg (random c)).1.1.1.1
  /\ tints c' = (generate cfg (random c)).1.1.1.2
  /\ random c' = (generate cfg (random c)).2.
Proof.
  unfold regenerate.
  destruct (generate cfg (random c)) as [[[[g t] b] batch] r].
  repeat split.
Qed.

Lemma mount_drawable (r : Random) : unitDraws r -> drawable cfg (mount cfg r).
Proof.
  intros Hr. split; [exact Hr|]. split; [constructor|]. split.
  - intros i rv Hi. cbn in Hi. rewrite lookup_empty in Hi. discriminate.
  - left. split; reflexivity.
Qed.

Lemma step_drawable (c : Component) (e : Event) :
  fortyRows cfg -> drawable cfg c -> drawable cfg (step cfg c e).
Proof.
  intros Hcfg (Hr & Hvis & Hlive & Hscheme). destruct e as [|i]; cbn [step].
  - destruct (regenerate_fields cfg c) as (Hv & Hi & _).
    destruct (regenerate_scheme c) as (Hg & Ht & Hrand).
    destruct (generate_scheme (random c) Hr) as (g & t & Eg & Hlen & Et & Hd).
    split; [|split; [|split]].
    + rewrite Hrand. intros k. rewrite Hd. apply Hr.
    + rewrite Hv. constructor.
    + intros k rv. rewrite Hi, lookup_insert_Some.
      intros [[_ <-]|[_ Hk]]; [|now apply (Hlive k)].
      cbn [paths]. destruct (generate_batch cfg (random c)) as (r3 & _ & ->).
      now apply batch_inRange.
    + right. exists g, t. rewrite Hg, Ht. auto.
  - unfold tick. destruct (intervals c !! i) as [rv|] eqn:Ei.
    2: { exact (conj Hr (conj Hvis (conj Hlive Hscheme))). }
    pose proof (Hlive i rv Ei) as Hrv.
    assert (Hset : exists g t, selectedGradient c = Some g /\ (2 <= length g)%nat
                               /\ tints c = Some t).
    { destruct Hscheme as [[_ He]|Hs]; [|exact Hs].
      rewrite He, lookup_empty in Ei. discriminate. }
    destruct (paths rv !! index rv) as [path|] eqn:E.
    + split; [exact Hr|]. split; [|split; [|right; exact Hset]].
      * apply Forall_app. split; [exact Hvis|].
        constructor; [|constructor]. eapply Forall_lookup_1; eassumption.
      * intros k rv'. cbn [intervals]. rewrite lookup_insert_Some.
        intros [[_ <-]|[_ Hk]]; [exact Hrv | now apply (Hlive k)].
    + split; [exact Hr|]. split; [exact Hvis|]. split; [|right; exact Hset].
      intros k rv'. cbn [intervals]. rewrite lookup_delete_Some.
      intros [_ Hk]. now apply (Hlive k).
Qed.

Lemma forEach_Normal {A} (f : A -> Completion (list DrawOp)) (l : list A) :
  Forall (fun a => exists ops, f a = Normal ops) l ->
  exists ops, forEach f l = Normal ops.
Proof.
  induction 1 as [|a l [ops Ha] _ [rest IH]]; cbn [forEach]; [eauto|].
  rewrite Ha, IH. cbn. eauto.
Qed.

Lemma drawable_draw (c : Component) :
  drawable cfg c -> exists ops, draw cfg c = Normal ops.
Proof.
  intros (_ & Hvis & _ & Hscheme). unfold draw.
  destruct Hscheme as [[-> _]|(g & t & -> & Hlen & ->)]; [cbn; eauto|].
  destruct (forEach_Normal
              (fun path => forEach (drawSegment cfg (Some g) (Some t)) (segments path))
              (visiblePaths c)) as [ops Hops].
  - eapply Forall_impl; [exact Hvis|].
    intros path Hpath. apply forEach_Normal.
    eapply Forall_impl; [exact Hpath|].
    intros [p1 p2] [Hlo Hhi]. cbn [fst snd] in *.
    destruct (interpolateColor_in_range g (baseRatio cfg p1 p2) Hlen)
      as (_ & _ & _ & _ & color & _ & _ & Hcolor); [lra | lra |].
    unfold drawSegment. cbn [deref mbind Completion_bind]. rewrite Hcolor. eauto.
  - rewrite Hops. cbn. eauto.
Qed.

(** X14: With the constants of either canvas and draws in [0, 1), the drawing
    effect completes without throwing in every reachable state. *)
Lemma draw_never_throws (r : Random) (c : Component) :
  fortyRows cfg -> unitDraws r -> reachable cfg r c ->
  exists ops, draw cfg c = Normal ops.
Proof.
  intros Hcfg Hr Hreach. apply drawable_draw.
  induction Hreach as [|c e _ IH]; [now apply mount_drawable | now apply step_drawable].
Qed.

End Drawing.

(** * Further properties of the colour functions *)

(** ** [hexToRgb] and [rgbToHex] *)

Lemma land_255_range (z : Z) : 0 <= Z.land z 255 <= 255.
Proof.
  change 255 with (Z.ones 8) at 1 2. rewrite Z.land_ones by lia.
  pose proof (Z.mod_pos_bound z (2 ^ 8)). lia.
Qed.

(** X1: [hexToRgb] accepts every string, and each channel it returns is a byte. *)
Theorem hexToRgb_range (hex : string) :
  (0 <= (hexToRgb hex).1.1 <= 255)
  /\ (0 <= (hexToRgb hex).1.2 <= 255)
  /\ (0 <= (hexToRgb hex).2 <= 255).
Proof. unfold hexToRgb. cbn [fst snd]. repeat split; apply land_255_range. Qed.

Lemma lowerHexChar_spec (d : Z) :
  0 <= d < 16 ->
  isLowerHexDigit (lowerHexChar d) = true /\ hexDigit (lowerHexChar d) = Some d.
Proof. intros H. each_digit d; split; reflexivity. Qed.

Lemma byte_toString (z : Z) :
  0 <= z <= 255 ->
  padStart2 (toString16 z)
  = String (lowerHexChar (z / 16)) (String (lowerHexChar (z mod 16)) EmptyString).
Proof.
  intros Hz. rewrite (Z.div_mod z 16) at 1 by lia.
  apply channel_toString; [|apply Z.mod_pos_bound; lia].
  split; [apply Z.div_pos; lia | apply Z.div_lt_upper_bound; lia].
Qed.

(** X2: Printing the channels of a valid colour gives the colour back. *)
Theorem rgbToHex_hexToRgb (s : string) :
  validColor s = true ->
  rgbToHex (inject_Z (hexToRgb s).1.1) (inject_Z (hexToRgb s).1.2)
    (inject_Z (hexToRgb s).2) = s.
Proof.
  intros Hs.
  destruct (validColor_digits s Hs)
    as (d1 & d2 & d3 & d4 & d5 & d6 & (B1 & B2 & B3) & (B4 & B5 & B6) & E & Hrgb).
  rewrite Hrgb. cbn [fst snd]. unfold rgbToHex. cbn [map].
  rewrite !(Math_round_integer _ _ (Qeq_refl _)), !channel_toString by assumption.
  rewrite E. reflexivity.
Qed.

Lemma rgbToHex_hexToRgb_witness :
  rgbToHex (inject_Z (hexToRgb "#bfe9ff").1.1) (inject_Z (hexToRgb "#bfe9ff").1.2)
    (inject_Z (hexToRgb "#bfe9ff").2) = "#bfe9ff".
Proof. apply (rgbToHex_hexToRgb "#bfe9ff"). reflexivity. Defined.

(** X3: Channels that round into a byte are printed as a valid colour, and
    [hexToRgb] reads the rounded channels back. *)
Theorem hexToRgb_rgbToHex (r g b : Q) :
  0 <= Math_round r <= 255 -> 0 <= Math_round g <= 255 -> 0 <= Math_round b <= 255 ->
  validColor (rgbToHex r g b) = true
  /\ hexToRgb (rgbToHex r g b) = (Math_round r, Math_round g, Math_round b).
Proof.
  intros Hr Hg Hb. unfold rgbToHex. cbn [map].
  rewrite !byte_toString by assumption.
  set (R := Math_round r) in *. set (G := Math_round g) in *. set (B := Math_round b) in *.
  assert (HR1 : 0 <= R / 16 < 16)
    by (split; [apply Z.div_pos; lia | apply Z.div_lt_upper_bound; lia]).
  assert (HG1 : 0 <= G / 16 < 16)
    by (split; [apply Z.div_pos; lia | apply Z.div_lt_upper_bound; lia]).
  assert (HB1 : 0 <= B / 16 < 16)
    by (split; [apply Z.div_pos; lia | apply Z.div_lt_upper_bound; lia]).
  assert (HR2 : 0 <= R mod 16 < 16) by (apply Z.mod_pos_bound; lia).
  assert (HG2 : 0 <= G mod 16 < 16) by (apply Z.mod_pos_bound; lia).
  assert (HB2 : 0 <= B mod 16 < 16) by (apply Z.mod_pos_bound; lia).
  cbv [String.concat String.append].
  set (s := String "#" _).
  assert (Hvalid : validColor s = true).
  { subst s. cbn [validColor String.length list_ascii_of_string forallb Nat.eqb andb].
    assert (Hlow : forall d, 0 <= d < 16 -> isLowerHexDigit (lowerHexChar d) = true)
      by (intros d Hd; apply lowerHexChar_spec, Hd).
    now rewrite !Hlow by assumption. }
  split; [exact Hvalid|].
  destruct (validColor_digits s Hvalid)
    as (d1 & d2 & d3 & d4 & d5 & d6 & (B1 & B2 & B3) & (B4 & B5 & B6) & E & Hrgb).
  subst s. cbn [map string_of_list_ascii] in E.
  injection E as E1 E2 E3 E4 E5 E6.
  assert (Hinj : forall a c, 0 <= a < 16 -> 0 <= c < 16 ->
                             lowerHexChar a = lowerHexChar c -> a = c).
  { intros a c Ha Hc Hac.
    pose proof (proj2 (lowerHexChar_spec a Ha)) as Ea.
    rewrite Hac, (proj2 (lowerHexChar_spec c Hc)) in Ea. congruence. }
  apply Hinj in E1, E2, E3, E4, E5, E6; try assumption.
  rewrite Hrgb. subst d1 d2 d3 d4 d5 d6.
  rewrite <- !Z.div_mod by lia. reflexivity.
Qed.

Lemma hexToRgb_rgbToHex_witness :
  validColor (rgbToHex (255 # 2) 0 (2549 # 10)) = true
  /\ hexToRgb (rgbToHex (255 # 2) 0 (2549 # 10))
     = (Math_round (255 # 2), Math_round 0, Math_round (2549 # 10)).
Proof.
  apply (hexToRgb_rgbToHex (255 # 2) 0 (2549 # 10)); vm_compute; split; discriminate.
Defined.

(** ** When [interpolateColor] returns, and what *)

Lemma element_Some {A} (arr : list A) (i : Z) (a : A) :
  element arr i = Some a -> 0 <= i < Z.of_nat (length arr).
Proof.
  unfold element. destruct (Z.ltb_spec i 0); [discriminate|].
  intros Hi. apply lookup_lt_Some in Hi. lia.
Qed.

(** X4: [interpolateColor] returns a colour exactly when the gradient has at
    least two control colours and the ratio is in [0, 1); in every other
    case it throws. *)
Theorem interpolateColor_defined (gradient : list string) (ratio : Q) :
  (exists color, interpolateColor gradient ratio = Normal color)
  <-> ((2 <= length gradient)%nat /\ (0 <= ratio)%Q /\ (ratio < 1)%Q).
Proof.
  split.
  - intros [color Hc]. unfold interpolateColor in Hc.
    set (n := Z.of_nat (length gradient) - 1) in *.
    set (i := Math_floor (ratio * inject_Z n)) in *.
    destruct (element gradient i) as [c1|] eqn:E1; [|discriminate Hc].
    destruct (element gradient (i + 1)) as [c2|] eqn:E2; [|discriminate Hc].
    apply element_Some in E1, E2.
    assert (Hn : (0 < inject_Z n)%Q).
    { change 0%Q with (inject_Z 0). rewrite <- Zlt_Qlt. lia. }
    split; [lia|]. split.
    + destruct (Qlt_le_dec ratio 0) as [Hneg|Hpos]; [exfalso|exact Hpos].
      assert (Hlt : (inject_Z i < inject_Z 0)%Q).
      { eapply Qle_lt_trans; [apply Qfloor_le|].
        change (inject_Z 0) with 0%Q. rewrite <- (Qmult_0_l (inject_Z n)).
        apply Qmult_lt_compat_r; assumption. }
      rewrite <- Zlt_Qlt in Hlt. lia.
    + destruct (Qlt_le_dec ratio 1) as [Hlt|Hge]; [exact Hlt|exfalso].
      assert (Hle : n <= i).
      { subst i. unfold Math_floor. rewrite <- (Qfloor_Z n) at 1.
        apply Qfloor_resp_le. rewrite <- (Qmult_1_l (inject_Z n)) at 1.
        apply Qmult_le_compat_r; [exact Hge | lra]. }
      lia.
  - intros (Hlen & H0 & H1).
    destruct (interpolateColor_in_range gradient ratio Hlen H0 H1)
      as (_ & _ & _ & _ & color & _ & _ & Hc).
    exists color. exact Hc.
Qed.

Lemma Math_round_half (z : Z) : Math_round (inject_Z z) = z.
Proof. apply Math_round_integer. reflexivity. Qed.

Lemma Math_round_between (a b : Z) (t : Q) :
  (0 <= t)%Q -> (t <= 1)%Q ->
  between a (Math_round (inject_Z a + (inject_Z b - inject_Z a) * t)) b.
Proof.
  intros H0 H1. unfold between.
  set (v := (inject_Z a + (inject_Z b - inject_Z a) * t)%Q).
  assert (Hmono : forall p q, (p <= q)%Q -> Math_round p <= Math_round q).
  { intros p q Hpq. unfold Math_round. apply Qfloor_resp_le. lra. }
  destruct (Z.le_ge_cases a b) as [Hab|Hab].
  - assert (HQ : (inject_Z a <= inject_Z b)%Q) by now rewrite <- Zle_Qle.
    assert (Hlo : (inject_Z a <= v)%Q) by (subst v; nra).
    assert (Hhi : (v <= inject_Z b)%Q) by (subst v; nra).
    apply Hmono in Hlo, Hhi. rewrite Math_round_half in Hlo, Hhi. lia.
  - assert (HQ : (inject_Z b <= inject_Z a)%Q) by now rewrite <- Zle_Qle.
    assert (Hlo : (inject_Z b <= v)%Q) by (subst v; nra).
    assert (Hhi : (v <= inject_Z a)%Q) by (subst v; nra).
    apply Hmono in Hlo, Hhi. rewrite Math_round_half in Hlo, Hhi. lia.
Qed.

(** X5: For a gradient of at least two colours and a ratio in [0, 1) the result
    is a valid colour, and each of its channels lies between the channels of
    the two control colours that bound the ratio. *)
Theorem interpolateColor_between (gradient : list string) (ratio : Q) :
  (2 <= length gradient)%nat -> (0 <= ratio)%Q -> (ratio < 1)%Q ->
  let i := Math_floor (ratio * inject_Z (Z.of_nat (length gradient) - 1)) in
  exists c1 c2 color,
    gradient !! Z.to_nat i = Some c1
    /\ gradient !! Z.to_nat (i + 1) = Some c2
    /\ interpolateColor gradient ratio = Normal color
    /\ validColor color = true
    /\ between (hexToRgb c1).1.1 (hexToRgb color).1.1 (hexToRgb c2).1.1
    /\ between (hexToRgb c1).1.2 (hexToRgb color).1.2 (hexToRgb c2).1.2
    /\ between (hexToRgb c1).2 (hexToRgb color).2 (hexToRgb c2).2.
Proof.
  intros Hlen H0 H1 i.
  destruct (interpolateColor_in_range gradient ratio Hlen H0 H1)
    as (Hi0 & Hi1 & c1 & c2 & color & L1 & L2 & Hc).
  fold i in Hi0, Hi1, L1, L2.
  exists c1, c2, color. split; [exact L1|]. split; [exact L2|]. split; [exact Hc|].
  unfold interpolateColor in Hc.
  set (n := Z.of_nat (length gradient) - 1) in *. fold i in Hc.
  assert (E1 : element gradient i = Some c1).
  { unfold element. destruct (Z.ltb_spec i 0); [lia | exact L1]. }
  assert (E2 : element gradient (i + 1) = Some c2).
  { unfold element. destruct (Z.ltb_spec (i + 1) 0); [lia | exact L2]. }
  rewrite E1, E2 in Hc. cbn [deref mbind Completion_bind] in Hc.
  pose proof (hexToRgb_range c1) as (R1 & G1 & B1).
  pose proof (hexToRgb_range c2) as (R2 & G2 & B2).
  destruct (hexToRgb c1) as [[r1 g1] b1], (hexToRgb c2) as [[r2 g2] b2].
  cbn [fst snd] in *.
  set (t := (ratio * inject_Z n - inject_Z i)%Q) in *.
  assert (Ht0 : (0 <= t)%Q).
  { subst t. pose proof (Qfloor_le (ratio * inject_Z n)). fold (Math_floor (ratio * inject_Z n)) in H.
    fold i in H. lra. }
  assert (Ht1 : (t <= 1)%Q).
  { subst t. pose proof (Qlt_floor (ratio * inject_Z n)) as H.
    fold (Math_floor (ratio * inject_Z n)) in H. fold i in H.
    rewrite inject_Z_plus in H. change (inject_Z 1) with 1%Q in H. lra. }
  pose proof (Math_round_between r1 r2 t Ht0 Ht1) as Br.
  pose proof (Math_round_between g1 g2 t Ht0 Ht1) as Bg.
  pose proof (Math_round_between b1 b2 t Ht0 Ht1) as Bb.
  injection Hc as <-.
  destruct (hexToRgb_rgbToHex
              (inject_Z r1 + (inject_Z r2 - inject_Z r1) * t)
              (inject_Z g1 + (inject_Z g2 - inject_Z g1) * t)
              (inject_Z b1 + (inject_Z b2 - inject_Z b1) * t)) as [Hvalid Hback];
    [unfold between in *; lia ..|].
  split; [exact Hvalid|]. rewrite Hback. cbn [fst snd]. auto.
Qed.

Lemma interpolateColor_between_witness :
  exists c1 c2 color,
    ["#000000"; "#ffffff"] !! 0%nat = Some c1
    /\ ["#000000"; "#ffffff"] !! 1%nat = Some c2
    /\ interpolateColor ["#000000"; "#ffffff"] (1 # 2) = Normal color
    /\ validColor color = true
    /\ between (hexToRgb c1).1.1 (hexToRgb color).1.1 (hexToRgb c2).1.1
    /\ between (hexToRgb c1).1.2 (hexToRgb color).1.2 (hexToRgb c2).1.2
    /\ between (hexToRgb c1).2 (hexToRgb color).2 (hexToRgb c2).2.
Proof.
  apply (interpolateColor_between ["#000000"; "#ffffff"] (1 # 2)).
  - cbn. lia.
  - lra.
  - lra.
Defined.

(** X6: At the [k]-th of the evenly spaced control points, other than the last
    one, a gradient of valid colours gives back its [k]-th colour. *)
Theorem interpolateColor_control_point (gradient : list string) (k : nat) (ratio : Q) :
  Forall (fun c => validColor c = true) gradient ->
  (k + 1 < length gradient)%nat ->
  (ratio == inject_Z (Z.of_nat k) / inject_Z (Z.of_nat (length gradient) - 1))%Q ->
  exists c, gradient !! k = Some c /\ interpolateColor gradient ratio = Normal c.
Proof.
  intros Hvalid Hk Hratio.
  set (n := Z.of_nat (length gradient) - 1) in *.
  assert (Hn : ~ (inject_Z n == 0)%Q).
  { change 0%Q with (inject_Z 0). rewrite inject_Z_injective. lia. }
  assert (Hscaled : (ratio * inject_Z n == inject_Z (Z.of_nat k))%Q).
  { rewrite Hratio. field. exact Hn. }
  destruct (lookup_lt_is_Some_2 gradient k) as [c1 L1]; [lia|].
  destruct (lookup_lt_is_Some_2 gradient (S k)) as [c2 L2]; [lia|].
  exists c1. split; [exact L1|].
  unfold interpolateColor. fold n.
  rewrite (Math_floor_integer _ _ Hscaled).
  replace (Z.of_nat k + 1) with (Z.of_nat (S k)) by lia.
  rewrite !element_nat, L1, L2. cbn [deref mbind Completion_bind].
  pose proof (rgbToHex_hexToRgb c1 (Forall_lookup_1 _ _ _ _ Hvalid L1)) as Hback.
  destruct (hexToRgb c1) as [[r1 g1] b1], (hexToRgb c2) as [[r2 g2] b2].
  cbn [fst snd] in Hback. rewrite <- Hback.
  unfold rgbToHex. cbn [map].
  rewrite (Math_round_integer _ r1), (Math_round_integer _ g1), (Math_round_integer _ b1),
    !Math_round_half; [reflexivity | ..]; rewrite Hscaled; ring.
Qed.

Lemma interpolateColor_control_point_witness :
  exists c, ["#00ffe5"; "#ff00ff"; "#ffff00"; "#00ff00"] !! 2%nat = Some c
            /\ interpolateColor ["#00ffe5"; "#ff00ff"; "#ffff00"; "#00ff00"] (2 # 3)
               = Normal c.
Proof.
  apply (interpolateColor_control_point
           ["#00ffe5"; "#ff00ff"; "#ffff00"; "#00ff00"] 2%nat (2 # 3)).
  - repeat constructor.
  - cbn. lia.
  - reflexivity.
Defined.

(** * Further properties of the simulation *)

(** ** The walk and the draws it consumes *)

Lemma simulateRows_prefix (cfg : Config) (rows : nat) :
  forall path r, exists steps, (simulateRows cfg rows path r).1 = path ++ steps.
Proof.
  induction rows as [|rows IH]; intros path r.
  - exists []. cbn. now rewrite app_nil_r.
  - cbn [simulateRows]. unfold mbind, Rand_bind, Math_random.
    destruct (IH (path ++ [{| x := (x (default (origin 0) (last path))
                                    + inject_Z (stepDirection (draws r (cursor r)))
                                      * stepSize cfg)%Q;
                              y := (y (default (origin 0) (last path)) + stepSize cfg)%Q;
                              direction := stepDirection (draws r (cursor r)) |}])
                {| draws := draws r; cursor := S (cursor r) |}) as [steps Hs].
    eexists. unfold stepDirection in Hs. rewrite Hs, <- app_assoc. reflexivity.
Qed.

Lemma simulateRows_directions (cfg : Config) (rows : nat) :
  forall path r j,
    (j < rows)%nat ->
    exists p, (simulateRows cfg rows path r).1 !! (length path + j)%nat = Some p
              /\ direction p = stepDirection (draws r (cursor r + j)%nat).
Proof.
  induction rows as [|rows IH]; intros path r j Hj; [lia|].
  cbn [simulateRows]. unfold mbind, Rand_bind, Math_random.
  set (new := {| x := _; y := _; direction := _ |}).
  set (r' := {| draws := draws r; cursor := S (cursor r) |}).
  destruct j as [|j].
  - destruct (simulateRows_prefix cfg rows (path ++ [new]) r') as [steps ->].
    exists new. split.
    + rewrite Nat.add_0_r, <- app_assoc. cbn [app].
      rewrite lookup_app_r by lia. now rewrite Nat.sub_diag.
    + rewrite Nat.add_0_r. reflexivity.
  - destruct (IH (path ++ [new]) r' j) as (p & Hp & Hd); [lia|].
    exists p. rewrite length_app in Hp. cbn [length] in Hp.
    replace (length path + S j)%nat with (length path + 1 + j)%nat by lia.
    split; [exact Hp|]. rewrite Hd. subst r'. cbn [draws cursor].
    f_equal. f_equal. lia.
Qed.

(** X7: [simulateBall] consumes exactly [numRows] draws, and the [j]-th of them
    decides the step into vertex [j + 1]: to the left when it is below 1/2,
    to the right otherwise. *)
Theorem simulateBall_draws (cfg : Config) (startX : Q) (r : Random) :
  (simulateBall cfg startX r).2
  = {| draws := draws r; cursor := (cursor r + numRows cfg)%nat |}
  /\ forall j, (j < numRows cfg)%nat ->
       exists p, (simulateBall cfg startX r).1 !! S j = Some p
                 /\ (direction p = -1 <-> (draws r (cursor r + j)%nat < 1 # 2)%Q)
                 /\ (direction p = 1 <-> (1 # 2 <= draws r (cursor r + j)%nat)%Q).
Proof.
  split; [apply simulateRows_random|].
  intros j Hj. unfold simulateBall.
  destruct (simulateRows_directions cfg (numRows cfg) [origin startX] r j Hj)
    as (p & Hp & Hd).
  exists p. split; [exact Hp|]. rewrite Hd. unfold stepDirection.
  destruct (Qlt_le_dec (draws r (cursor r + j)%nat) (1 # 2)) as [Hlt|Hge].
  - split; split; try reflexivity; try (intros _; exact Hlt);
      intros H; try discriminate H. exfalso. lra.
  - split; split; try reflexivity; try (intros _; exact Hge);
      intros H; try discriminate H. exfalso. lra.
Qed.

(** ** The envelope of a walk *)

Lemma walk_envelope (cfg : Config) (path : list Point) :
  (0 <= stepSize cfg)%Q ->
  forall p0 j p,
    head path = Some p0 ->
    Forall (stepOK cfg) (segments path) ->
    path !! j = Some p ->
    (y p == y p0 + inject_Z (Z.of_nat j) * stepSize cfg)%Q
    /\ (x p0 - inject_Z (Z.of_nat j) * stepSize cfg <= x p)%Q
    /\ (x p <= x p0 + inject_Z (Z.of_nat j) * stepSize cfg)%Q.
Proof.
  intros Hs. induction path as [|a rest IH]; intros p0 j p Hhead Hsteps Hj;
    [discriminate|].
  injection Hhead as <-. destruct j as [|j].
  - injection Hj as <-. change (inject_Z (Z.of_nat 0)) with 0%Q. repeat split; lra.
  - cbn [lookup list_lookup] in Hj. destruct rest as [|b rest]; [discriminate|].
    change (segments (a :: b :: rest)) with ((a, b) :: segments (b :: rest)) in Hsteps.
    apply Forall_cons in Hsteps as [(Hy & Hd & Hx) Hsteps].
    destruct (IH b j p eq_refl Hsteps Hj) as (Hpy & Hlo & Hhi).
    rewrite Nat2Z.inj_succ. unfold Z.succ. rewrite inject_Z_plus.
    change (inject_Z 1) with 1%Q.
    assert (Hxb : (x a - stepSize cfg <= x b)%Q /\ (x b <= x a + stepSize cfg)%Q).
    { destruct Hd as [Hd|Hd]; rewrite Hd in Hx; rewrite Hx;
        [change (inject_Z (-1)) with (-1 # 1) | change (inject_Z 1) with 1%Q];
        split; lra. }
    destruct Hxb. repeat split; lra.
Qed.

(** X8: Vertex [j] of a path returned by [simulateBall] is [j] steps down and at
    most [j] steps to either side of the start. *)
Theorem simulateBall_envelope (cfg : Config) (startX : Q) (r : Random) (j : nat) (p : Point) :
  (0 <= stepSize cfg)%Q ->
  (simulateBall cfg startX r).1 !! j = Some p ->
  (y p == inject_Z (Z.of_nat j) * stepSize cfg)%Q
  /\ (startX - inject_Z (Z.of_nat j) * stepSize cfg <= x p)%Q
  /\ (x p <= startX + inject_Z (Z.of_nat j) * stepSize cfg)%Q.
Proof.
  intros Hs Hj.
  destruct (simulateBall_inv cfg startX r) as (_ & Hhead & Hsteps & _).
  destruct (walk_envelope cfg _ Hs _ _ _ Hhead Hsteps Hj) as (Hy & Hlo & Hhi).
  cbn [x y origin] in *. repeat split; [rewrite Hy; ring | exact Hlo | exact Hhi].
Qed.

Lemma simulateBall_envelope_witness :
  (y {| x := -30; y := 30; direction := -1 |} == inject_Z (Z.of_nat 1) * stepSize GridCanvas)%Q
  /\ (0 - inject_Z (Z.of_nat 1) * stepSize GridCanvas
      <= x {| x := -30; y := 30; direction := -1 |})%Q
  /\ (x {| x := -30; y := 30; direction := -1 |}
      <= 0 + inject_Z (Z.of_nat 1) * stepSize GridCanvas)%Q.
Proof.
  apply (simulateBall_envelope GridCanvas 0 sampleRandom 1%nat
           {| x := -30; y := 30; direction := -1 |}).
  - cbn. lra.
  - reflexivity.
Defined.

(** X9: Every vertex of every path of a batch lies between the top and the
    bottom of the canvas, whenever the canvas is exactly [numRows] steps
    high; this is so in both components. *)
Theorem batch_inside_canvas (cfg : Config) (r : Random) :
  (0 <= stepSize cfg)%Q ->
  (inject_Z (Z.of_nat (numRows cfg)) * stepSize cfg == canvasHeight cfg)%Q ->
  Forall (Forall (fun p => (0 <= y p)%Q /\ (y p <= canvasHeight cfg)%Q))
         (recenter cfg (allPaths cfg r).1).
Proof.
  intros Hs Hheight. unfold recenter. apply Forall_map.
  refine (proj1 (Array_from_Forall _ (fun _ => True) _ _ (numBalls cfg) r I)).
  intros r0 _. split; [|exact I].
  unfold mbind, Rand_bind, Math_random.
  set (u := draws r0 (cursor r0)).
  set (r1 := {| draws := draws r0; cursor := S (cursor r0) |}).
  destruct (simulateBall_inv cfg (startXOf cfg u) r1) as (Hlength & _).
  apply Forall_map, Forall_lookup. intros j p Hj.
  destruct (simulateBall_envelope cfg _ _ _ _ Hs Hj) as (Hy & _).
  apply lookup_lt_Some in Hj. rewrite Hlength in Hj.
  cbn [y recenterPoint]. rewrite Hy, <- Hheight.
  assert (HJ0 : (inject_Z 0 <= inject_Z (Z.of_nat j))%Q) by (rewrite <- Zle_Qle; lia).
  assert (HJ1 : (inject_Z (Z.of_nat j) <= inject_Z (Z.of_nat (numRows cfg)))%Q)
    by (rewrite <- Zle_Qle; lia).
  change (inject_Z 0) with 0%Q in HJ0. split.
  - apply Qmult_le_0_compat; assumption.
  - apply Qmult_le_compat_r; assumption.
Qed.

Lemma batch_inside_canvas_witness :
  Forall (Forall (fun p => (0 <= y p)%Q /\ (y p <= canvasHeight PachinkoCanvas)%Q))
         (recenter PachinkoCanvas (allPaths PachinkoCanvas sampleRandom).1).
Proof.
  apply (batch_inside_canvas PachinkoCanvas sampleRandom).
  - cbn. lra.
  - reflexivity.
Defined.

(** ** Random choices *)

(** X10: [arr[Math.floor(Math.random() * arr.length)]], for a non-empty array
    and a draw [u] in [0, 1), consumes one draw and is a defined element of
    the array; it is the element of slot [j] whenever [u] lies in the
    interval from [j / length] to [(j + 1) / length] shortened by
    [roundingMargin] at both ends. *)
Theorem randomElement_slot {A} (arr : list A) (r : Random) :
  arr <> [] ->
  (0 <= draws r (cursor r))%Q -> (draws r (cursor r) < 1)%Q ->
  (randomElement arr r).2 = {| draws := draws r; cursor := S (cursor r) |}
  /\ (exists a, (randomElement arr r).1 = Some a /\ a ∈ arr)
  /\ (forall j : nat,
        (inject_Z (Z.of_nat j) / inject_Z (Z.of_nat (length arr)) + roundingMargin
         <= draws r (cursor r))%Q ->
        (draws r (cursor r)
         <= inject_Z (Z.of_nat j + 1) / inject_Z (Z.of_nat (length arr)) - roundingMargin)%Q ->
        (randomElement arr r).1 = arr !! j).
Proof.
  intros Harr H0 H1. split; [reflexivity|].
  set (u := draws r (cursor r)) in *.
  assert (Hlen : 0 < Z.of_nat (length arr)) by (destruct arr; [congruence | cbn; lia]).
  set (L := Z.of_nat (length arr)) in *.
  assert (HL : (0 < inject_Z L)%Q).
  { change 0%Q with (inject_Z 0). now rewrite <- Zlt_Qlt. }
  assert (Hmargin : (0 < roundingMargin)%Q) by reflexivity.
  split.
  - destruct (randomElement_unit arr u H0 H1 Harr) as (a & Ea & Ha). fold L in Ea.
    exists a. split; [exact Ea | exact Ha].
  - intros j Hlo Hhi.
    change ((randomElement arr r).1) with (element arr (Math_floor (u * inject_Z L))).
    rewrite <- element_nat. f_equal. apply Qfloor_iff.
    assert (Hne : ~ (inject_Z L == 0)%Q) by lra.
    assert (Ha : (inject_Z (Z.of_nat j) / inject_Z L * inject_Z L
                  == inject_Z (Z.of_nat j))%Q) by (field; exact Hne).
    assert (Hb : (inject_Z (Z.of_nat j + 1) / inject_Z L * inject_Z L
                  == inject_Z (Z.of_nat j + 1))%Q) by (field; exact Hne).
    set (lo := (inject_Z (Z.of_nat j) / inject_Z L)%Q) in *.
    set (hi := (inject_Z (Z.of_nat j + 1) / inject_Z L)%Q) in *.
    split.
    + rewrite <- Ha. apply Qmult_le_compat_r; lra.
    + rewrite <- Hb. apply Qmult_lt_compat_r; lra.
Qed.

Lemma randomElement_slot_witness :
  (randomElement tintOptions sampleRandom).2
  = {| draws := draws sampleRandom; cursor := S (cursor sampleRandom) |}.
Proof.
  apply (randomElement_slot tintOptions sampleRandom).
  - discriminate.
  - cbn. lra.
  - cbn. lra.
Defined.

(** X11: With draws in [0, 1), [regenerate] always installs a colour scheme taken
    from the three tables, and it consumes three draws for the scheme and
    [numRows + 1] draws for each of the [numBalls] paths. *)
Theorem regenerate_scheme_and_draws (cfg : Config) (c : Component) :
  unitDraws (random c) ->
  let c' := regenerate cfg c in
  (exists g t b,
      selectedGradient c' = Some g /\ g ∈ map snd gradients
      /\ tints c' = Some t /\ t ∈ tintOptions
      /\ bgColor c' = Some b /\ b ∈ backgroundOptions)
  /\ random c'
     = {| draws := draws (random c);
          cursor := (cursor (random c) + 3 + numBalls cfg * (numRows cfg + 1))%nat |}.
Proof.
  intros Hr c'. subst c'. unfold regenerate.
  set (r := random c) in *.
  destruct (randomElement_unit (map snd gradients) (draws r (cursor r)))
    as (g & Eg & Hg); [apply Hr | apply Hr | discriminate |].
  destruct (randomElement_unit tintOptions (draws r (S (cursor r))))
    as (t & Et & Ht); [apply Hr | apply Hr | discriminate |].
  destruct (randomElement_unit backgroundOptions (draws r (S (S (cursor r)))))
    as (b & Eb & Hb); [apply Hr | apply Hr | discriminate |].
  cbv [generate mbind Rand_bind randomElement Math_random mret Rand_ret].
  cbn [draws cursor].
  pose proof (allPaths_random cfg {| draws := draws r; cursor := S (S (S (cursor r))) |})
    as Hrand.
  destruct (allPaths cfg _) as [all r4]. cbn [snd] in Hrand.
  cbn [selectedGradient tints bgColor random]. split.
  - exists g, t, b. repeat split; assumption.
  - rewrite Hrand. cbn [draws cursor]. f_equal. lia.
Qed.

Lemma regenerate_scheme_and_draws_witness :
  random (regenerate GridCanvas (mount GridCanvas sampleRandom))
  = {| draws := draws (random (mount GridCanvas sampleRandom));
       cursor := (cursor (random (mount GridCanvas sampleRandom)) + 3
                  + numBalls GridCanvas * (numRows GridCanvas + 1))%nat |}.
Proof.
  apply (regenerate_scheme_and_draws GridCanvas (mount GridCanvas sampleRandom)).
  exact sampleRandom_unit.
Defined.

(** * Further properties of the drawing effect *)

Section DrawingFacts.

Variable cfg : Config.

Lemma forEach_blocks {A} (f : A -> Completion (list DrawOp)) (l : list A) :
  forall ops,
    forEach f l = Normal ops ->
    exists blocks, Forall2 (fun a o => f a = Normal o) l blocks /\ ops = concat blocks.
Proof.
  induction l as [|a l IH]; intros ops H; cbn [forEach] in H.
  - injection H as <-. exists []. split; [constructor | reflexivity].
  - destruct (f a) as [o|] eqn:Ea; [|discriminate H].
    destruct (forEach f l) as [rest|] eqn:El; [|discriminate H].
    cbn in H. injection H as <-.
    destruct (IH rest eq_refl) as (blocks & Hall & ->).
    exists (o :: blocks). split; [constructor; assumption | reflexivity].
Qed.

Lemma forEach_defined {A} (f : A -> Completion (list DrawOp)) (l : list A) :
  (exists ops, forEach f l = Normal ops)
  <-> Forall (fun a => exists o, f a = Normal o) l.
Proof.
  split; [|apply forEach_Normal].
  intros [ops H]. destruct (forEach_blocks f l ops H) as (blocks & Hall & _).
  clear H. induction Hall; constructor; eauto.
Qed.

Lemma Forall2_concat_blocks {A B} (R : A -> B -> Prop) (xss : list (list A))
    (yss : list (list B)) :
  Forall2 (Forall2 R) xss yss -> Forall2 R (concat xss) (concat yss).
Proof.
  induction 1 as [|xs ys xss yss Hxy _ IH]; cbn [concat]; [constructor|].
  now apply Forall2_app.
Qed.

Lemma drawSegment_strokes (c : Component) (seg : Point * Point) (ops : list DrawOp) :
  drawSegment cfg (selectedGradient c) (tints c) seg = Normal ops
  <-> strokesFor cfg c seg ops.
Proof.
  unfold drawSegment, strokesFor. destruct seg as [p1 p2]. cbn [fst snd].
  destruct (selectedGradient c) as [g|]; cbn [deref mbind Completion_bind].
  2: { split; [discriminate | intros (g & t & color & Hg & _); discriminate Hg]. }
  destruct (interpolateColor g (baseRatio cfg p1 p2)) as [color|] eqn:Ec;
    cbn [mbind Completion_bind].
  2: { split; [discriminate|].
       intros (g' & t & color & Hg & _ & Hc & _). congruence. }
  destruct (tints c) as [t|]; cbn [deref mbind Completion_bind].
  2: { split; [discriminate | intros (g' & t & color' & _ & Ht & _); discriminate Ht]. }
  split.
  - intros [= <-]. exists g, t, color. repeat split. exact Ec.
  - intros (g' & t' & color' & Hg & Ht & Hc & ->).
    injection Hg as <-. injection Ht as <-. rewrite Ec in Hc. injection Hc as <-.
    reflexivity.
Qed.

End DrawingFacts.

(** X12: Whenever the drawing effect completes, it has cleared the whole canvas
    and then issued, for every segment of every revealed path in reveal
    order, a plain stroke in the interpolated colour followed by a blurred
    stroke in the left tint when the segment steps left and in the right tint
    otherwise. *)
Theorem draw_strokes (cfg : Config) (c : Component) (ops : list DrawOp) :
  draw cfg c = Normal ops ->
  exists blocks,
    ops = ClearRect 0 0 (canvasWidth cfg) (canvasHeight cfg) :: concat blocks
    /\ Forall2 (strokesFor cfg c) (allSegments (visiblePaths c)) blocks.
Proof.
  unfold draw. intros H.
  destruct (forEach _ (visiblePaths c)) as [body|] eqn:E; [|discriminate H].
  cbn in H. injection H as <-.
  destruct (forEach_blocks _ _ _ E) as (outer & Houter & ->).
  assert (Hnested : exists inner,
             outer = map (@concat DrawOp) inner
             /\ Forall2 (Forall2 (strokesFor cfg c)) (map segments (visiblePaths c)) inner).
  { clear E. induction Houter as [|path o paths os Hpath _ (inner & -> & Hin)].
    - exists []. split; [reflexivity | constructor].
    - destruct (forEach_blocks _ _ _ Hpath) as (blocks & Hblocks & ->).
      exists (blocks :: inner). split; [reflexivity|].
      constructor; [|exact Hin].
      eapply Forall2_impl; [exact Hblocks|].
      intros seg o Ho. now apply drawSegment_strokes. }
  destruct Hnested as (inner & -> & Hinner).
  exists (concat inner). split.
  - f_equal. clear. induction inner as [|b inner IH]; [reflexivity|].
    cbn [map concat]. rewrite IH. symmetry. apply concat_app.
  - now apply Forall2_concat_blocks.
Qed.

Lemma draw_strokes_witness :
  let c := run GridCanvas (mount GridCanvas sampleRandom) [Regenerate; Tick 1] in
  let ops := match draw GridCanvas c with Normal o => o | ThrowTypeError => [] end in
  exists blocks,
    ops = ClearRect 0 0 (canvasWidth GridCanvas) (canvasHeight GridCanvas) :: concat blocks
    /\ Forall2 (strokesFor GridCanvas c) (allSegments (visiblePaths c)) blocks.
Proof.
  cbv zeta.
  apply (draw_strokes GridCanvas
           (run GridCanvas (mount GridCanvas sampleRandom) [Regenerate; Tick 1])).
  vm_compute. reflexivity.
Defined.

(** X13: The drawing effect completes exactly when, for every segment of the
    revealed paths, a gradient of at least two colours and a tint pair are
    selected and the segment's ratio is in [0, 1); otherwise it throws. *)
Theorem draw_defined (cfg : Config) (c : Component) :
  (exists ops, draw cfg c = Normal ops)
  <-> Forall
        (fun seg =>
           exists g t,
             selectedGradient c = Some g /\ tints c = Some t
             /\ (2 <= length g)%nat
             /\ (0 <= baseRatio cfg seg.1 seg.2)%Q
             /\ (baseRatio cfg seg.1 seg.2 < 1)%Q)
        (allSegments (visiblePaths c)).
Proof.
  assert (Hseg : forall seg,
             (exists o, drawSegment cfg (selectedGradient c) (tints c) seg = Normal o)
             <-> exists g t,
                   selectedGradient c = Some g /\ tints c = Some t
                   /\ (2 <= length g)%nat
                   /\ (0 <= baseRatio cfg seg.1 seg.2)%Q
                   /\ (baseRatio cfg seg.1 seg.2 < 1)%Q).
  { intros seg. split.
    - intros [o Ho]. apply drawSegment_strokes in Ho as (g & t & color & Hg & Ht & Hc & _).
      exists g, t. split; [exact Hg|]. split; [exact Ht|].
      apply interpolateColor_defined. eauto.
    - intros (g & t & Hg & Ht & Hdef).
      apply interpolateColor_defined in Hdef as [color Hc].
      eexists. apply drawSegment_strokes. exists g, t, color. eauto. }
  unfold draw, allSegments. rewrite Forall_concat, Forall_map.
  split.
  - intros [ops H].
    destruct (forEach _ (visiblePaths c)) as [body|] eqn:E; [|discriminate H].
    assert (Hex : exists b, forEach (fun path => forEach (drawSegment cfg (selectedGradient c) (tints c)) (segments path)) (visiblePaths c) = Normal b) by eauto.
    apply forEach_defined in Hex.
    eapply Forall_impl; [exact Hex|].
    intros path Hpath. apply forEach_defined in Hpath.
    eapply Forall_impl; [exact Hpath|]. intros seg. apply Hseg.
  - intros Hall.
    assert (Hex : exists b, forEach (fun path => forEach (drawSegment cfg (selectedGradient c) (tints c)) (segments path)) (visiblePaths c) = Normal b).
    { apply forEach_defined. eapply Forall_impl; [exact Hall|].
      intros path Hpath. apply forEach_defined.
      eapply Forall_impl; [exact Hpath|]. intros seg. apply Hseg. }
    destruct Hex as [b ->]. cbn. eauto.
Qed.

(** * Further properties of the component *)

(** ** The notifications *)

Lemma snoc_split {A} (l before after : list A) (a b : A) :
  l ++ [a] = before ++ b :: after ->
  (after = [] /\ a = b /\ l = before)
  \/ exists after', after = after' ++ [a] /\ l = before ++ b :: after'.
Proof.
  intros H. destruct (decide (after = [])) as [->|Hne].
  - left. apply app_inj_tail in H as [-> ->]. auto.
  - right. destruct (exists_last Hne) as (after' & a' & ->).
    change (before ++ b :: after' ++ [a']) with (before ++ (b :: after') ++ [a']) in H.
    rewrite app_assoc in H. apply app_inj_tail in H as [-> ->]. eauto.
Qed.

Lemma mount_protocolOK (cfg : Config) (r : Random) : protocolOK (mount cfg r).
Proof.
  unfold protocolOK. cbn [mount nextInterval notifications intervals].
  split; [lia|]. split; [constructor|]. split; [|split; [|split]].
  - intros g. split; [intros H; now apply elem_of_nil in H | lia].
  - intros g before after H. destruct before; discriminate H.
  - intros g H. now apply elem_of_nil in H.
  - intros g [rv H]. rewrite lookup_empty in H. discriminate.
Qed.

Lemma regenerate_protocolOK (cfg : Config) (c : Component) :
  protocolOK c -> protocolOK (regenerate cfg c).
Proof.
  intros (Hnext & Hnodup & Hstart & Horder & Hend & Hlive).
  destruct (regenerate_fields cfg c) as (_ & Hi & Hn & Hlog).
  unfold protocolOK. rewrite Hi, Hn, Hlog.
  assert (Hfresh : AnimationStart (nextInterval c) ∉ notifications c).
  { intros H. apply Hstart in H. lia. }
  split; [lia|]. split; [|split; [|split; [|split]]].
  - apply NoDup_app. split; [exact Hnodup|]. split; [|apply NoDup_singleton].
    intros n Hn1 Hn2. apply list_elem_of_singleton in Hn2. subst n. contradiction.
  - intros g. rewrite elem_of_app, list_elem_of_singleton, Hstart.
    split; [intros [H|[= ->]]; lia|].
    intros H. destruct (decide (g = nextInterval c)) as [->|]; [now right | left; lia].
  - intros g before after H.
    apply snoc_split in H as [(_ & Hab & _)|(after' & _ & H)]; [discriminate Hab|].
    now apply (Horder g before after').
  - intros g H. apply elem_of_app in H as [H|H].
    + rewrite lookup_insert_ne; [now apply Hend|].
      intros <-. apply list_elem_of_split in H as (before & after & H).
      pose proof (Horder _ _ _ H) as Hb.
      assert (Hs : AnimationStart (nextInterval c) ∈ notifications c)
        by (rewrite H; apply elem_of_app; now left).
      apply Hstart in Hs. lia.
    + apply list_elem_of_singleton in H. discriminate H.
  - intros g. rewrite lookup_insert_is_Some. intros [<-|[_ H]]; [lia|].
    apply Hlive in H. lia.
Qed.

Lemma tick_protocolOK (i : nat) (c : Component) : protocolOK c -> protocolOK (tick i c).
Proof.
  intros (Hnext & Hnodup & Hstart & Horder & Hend & Hlive). unfold tick.
  destruct (intervals c !! i) as [rv|] eqn:Ei;
    [|exact (conj Hnext (conj Hnodup (conj Hstart (conj Horder (conj Hend Hlive)))))].
  assert (Hi : (1 <= i < nextInterval c)%nat) by (apply Hlive; now rewrite Ei).
  destruct (paths rv !! index rv); unfold protocolOK;
    cbn [nextInterval notifications intervals].
  - split; [exact Hnext|]. split; [exact Hnodup|]. split; [exact Hstart|].
    split; [exact Horder|]. split.
    + intros g H. rewrite lookup_insert_ne; [now apply Hend|].
      intros <-. apply Hend in H. rewrite Ei in H. discriminate.
    + intros g. rewrite lookup_insert_is_Some. intros [<-|[_ H]]; [exact Hi|].
      now apply Hlive.
  - assert (Hnew : AnimationEnd i ∉ notifications c).
    { intros H. apply Hend in H. rewrite Ei in H. discriminate. }
    split; [exact Hnext|]. split; [|split; [|split; [|split]]].
    + apply NoDup_app. split; [exact Hnodup|]. split; [|apply NoDup_singleton].
      intros n Hn1 Hn2. apply list_elem_of_singleton in Hn2. subst n. contradiction.
    + intros g. rewrite elem_of_app, list_elem_of_singleton, Hstart.
      split; [intros [H|H]; [exact H | discriminate H] | auto].
    + intros g before after H.
      apply snoc_split in H as [(_ & [= <-] & <-)|(after' & _ & H)].
      * now apply Hstart.
      * now apply (Horder g before after').
    + intros g H. apply elem_of_app in H as [H|H].
      * destruct (decide (i = g)) as [->|Hne]; [apply lookup_delete_eq|].
        rewrite lookup_delete_ne by exact Hne. now apply Hend.
      * apply list_elem_of_singleton in H. injection H as ->. apply lookup_delete_eq.
    + intros g. rewrite lookup_delete_is_Some. intros [_ H]. now apply Hlive.
Qed.

(** X15: In every reachable state the notifications are pairwise distinct, so no
    generation starts or ends twice; the generations started are numbered
    1, 2, ... without gaps; an animation end is always preceded by the
    animation start of the same generation; and the interval of a generation
    that has ended is cleared. *)
Theorem notifications_protocol (cfg : Config) (r : Random) (c : Component) :
  reachable cfg r c -> protocolOK c.
Proof.
  induction 1 as [|c e _ IH]; [apply mount_protocolOK|].
  destruct e; [now apply regenerate_protocolOK | now apply tick_protocolOK].
Qed.

Lemma notifications_protocol_witness :
  protocolOK (step GridCanvas (step GridCanvas (mount GridCanvas sampleRandom) Regenerate)
                (Tick 1)).
Proof.
  apply (notifications_protocol GridCanvas sampleRandom).
  apply reachable_step, reachable_step, reachable_mount.
Defined.

(** ** What is on display *)

Lemma recenter_wellFormed (cfg : Config) (path : list Point) :
  wellFormedPath cfg path -> wellFormedPath cfg (map (recenterPoint cfg) path).
Proof.
  intros (Hlen & (p0 & Hhead & Hy0 & Hd0) & Hsteps). split; [|split].
  - now rewrite length_map.
  - exists (recenterPoint cfg p0). destruct path; [discriminate|].
    injection Hhead as ->. repeat split; assumption.
  - rewrite segments_map. apply Forall_map.
    eapply Forall_impl; [exact Hsteps|].
    intros [p1 p2] (Hy & Hd & Hx). cbn. repeat split; [exact Hy | exact Hd|].
    rewrite Hx. ring.
Qed.

Lemma batch_wellFormed (cfg : Config) (r : Random) :
  Forall (wellFormedPath cfg) (recenter cfg (allPaths cfg r).1).
Proof.
  unfold recenter. apply Forall_map.
  refine (proj1 (Array_from_Forall _ (fun _ => True) _ _ (numBalls cfg) r I)).
  intros r0 _. split; [|exact I].
  unfold mbind, Rand_bind, Math_random.
  apply recenter_wellFormed.
  destruct (simulateBall_inv cfg (startXOf cfg (draws r0 (cursor r0)))
              {| draws := draws r0; cursor := S (cursor r0) |})
    as (Hlen & Hhead & Hsteps & _).
  split; [exact Hlen|]. split; [|exact Hsteps].
  eexists. split; [exact Hhead|]. split; reflexivity.
Qed.

(** X16: Whatever calls of [regenerate] and firings of intervals have happened,
    every path on display is a complete walk: [numRows + 1] vertices from
    height 0, each [stepSize] lower than the one before and [stepSize] to
    its left or right as its direction says. *)
Theorem visiblePaths_wellFormed (cfg : Config) (r : Random) (c : Component) :
  reachable cfg r c -> Forall (wellFormedPath cfg) (visiblePaths c).
Proof.
  intros Hreach.
  assert (H : Forall (wellFormedPath cfg) (visiblePaths c)
              /\ forall i rv, intervals c !! i = Some rv ->
                              Forall (wellFormedPath cfg) (paths rv));
    [|exact (proj1 H)].
  induction Hreach as [|c e _ [Hvis Hlive]].
  - split; [constructor|]. intros i rv H. cbn in H. rewrite lookup_empty in H. discriminate.
  - destruct e as [|i]; cbn [step].
    + destruct (regenerate_fields cfg c) as (Hv & Hi & _). rewrite Hv, Hi.
      split; [constructor|]. intros k rv. rewrite lookup_insert_Some.
      intros [[_ <-]|[_ Hk]]; [|now apply (Hlive k)].
      cbn [paths]. destruct (generate_batch cfg (random c)) as (r3 & _ & ->).
      apply batch_wellFormed.
    + unfold tick. destruct (intervals c !! i) as [rv|] eqn:Ei; [|split; assumption].
      pose proof (Hlive i rv Ei) as Hrv.
      destruct (paths rv !! index rv) as [path|] eqn:E; cbn [visiblePaths intervals].
      * split.
        -- apply Forall_app. split; [exact Hvis|].
           constructor; [|constructor]. eapply Forall_lookup_1; eassumption.
        -- intros k rv'. rewrite lookup_insert_Some.
           intros [[_ <-]|[_ Hk]]; [exact Hrv | now apply (Hlive k)].
      * split; [exact Hvis|]. intros k rv'. rewrite lookup_delete_Some.
        intros [_ Hk]. now apply (Hlive k).
Qed.

Lemma visiblePaths_wellFormed_witness :
  Forall (wellFormedPath GridCanvas)
    (visiblePaths (step GridCanvas (step GridCanvas (mount GridCanvas sampleRandom) Regenerate)
                     (Tick 1))).
Proof.
  apply (visiblePaths_wellFormed GridCanvas sampleRandom).
  apply reachable_step, reachable_step, reachable_mount.
Defined.

Lemma draw_never_throws_witness :
  exists ops,
    draw GridCanvas
      (step GridCanvas (step GridCanvas (mount GridCanvas sampleRandom) Regenerate) (Tick 1))
    = Normal ops.
Proof.
  apply (draw_never_throws GridCanvas sampleRandom).
  - exact fortyRows_GridCanvas.
  - exact sampleRandom_unit.
  - apply reachable_step, reachable_step, reachable_mount.
Defined.

(** * The host *)

Section HostFacts.

Variable h : Host.

Lemma canvasStep_regenerate (a : App) :
  let a' := canvasStep h a Regenerate in
  isAnimating a' = true
  /\ framePending a' = framePending a
  /\ canvas a' = regenerate (component h) (canvas a).
Proof.
  unfold canvasStep, sentBy. cbn [step isAnimating framePending canvas].
  destruct (regenerate_fields (component h) (canvas a)) as (_ & _ & _ & ->).
  rewrite drop_app_length. repeat split.
Qed.

Lemma canvasStep_tick (a : App) (i : nat) :
  let a' := canvasStep h a (Tick i) in
  framePending a' = framePending a
  /\ canvas a' = tick i (canvas a)
  /\ isAnimating a'
     = match intervals (canvas a) !! i with
       | Some rv => match paths rv !! index rv with
                    | Some _ => isAnimating a
                    | None => false
                    end
       | None => isAnimating a
       end.
Proof.
  unfold canvasStep, sentBy. cbn [step isAnimating framePending canvas].
  split; [reflexivity|]. split; [reflexivity|].
  unfold tick. destruct (intervals (canvas a) !! i) as [rv|].
  - destruct (paths rv !! index rv); cbn [notifications].
    + now rewrite drop_all.
    + now rewrite drop_app_length.
  - now rewrite drop_all.
Qed.

Lemma regenerate_hostInv (a : App) :
  intervals (canvas a) = ∅ ->
  framePending a = false ->
  hostInv h (canvasStep h a Regenerate).
Proof.
  intros Hempty Hframe.
  destruct (canvasStep_regenerate a) as (Ha & Hf & Hc).
  destruct (regenerate_fields (component h) (canvas a)) as (Hv & Hi & _).
  right. left. rewrite Hf, Hc, Ha, Hv, Hi, Hempty, insert_empty.
  split; [exact Hframe|]. split; [reflexivity|].
  exists (nextInterval (canvas a)),
    {| paths := (generate (component h) (random (canvas a))).1.2; index := 0 |},
    (random (canvas a)).
  cbn [paths index]. repeat split. lia.
Qed.

Lemma appMount_hostInv (r : Random) : hostInv h (appMount h r).
Proof.
  unfold appMount. destruct (deferredStart h) eqn:Hd.
  - left. cbn. auto.
  - apply regenerate_hostInv; reflexivity.
Qed.

Lemma appStep_hostInv (a : App) (e : AppEvent) :
  hostInv h a ->
  (e = Generate -> isAnimating a = false /\ framePending a = false) ->
  hostInv h (appStep h a e).
Proof.
  intros Hinv Hgate. destruct e as [| |i]; cbn [appStep].
  - destruct (framePending a) eqn:Hf; [|exact Hinv].
    destruct Hinv as [(_ & _ & He & _)|[(Hf' & _)|(Hf' & _)]]; try congruence.
    now apply regenerate_hostInv.
  - destruct (Hgate eq_refl) as [Hidle Hf].
    destruct Hinv as [(Hf' & _)|[(_ & Ha & _)|(_ & _ & He & _)]]; try congruence.
    now apply regenerate_hostInv.
  - destruct (canvasStep_tick a i) as (Hf & Hc & Ha).
    unfold hostInv. rewrite Hf, Hc, Ha. clear Hf Hc Ha.
    destruct Hinv as [(Hf & Ha & He & Hv)|[(Hf & Ha & id & rv & r0 & Hi & Hp & Hk & Hv)
                                          |(Hf & Ha & He & r0 & Hv)]].
    + left. unfold tick. rewrite He, lookup_empty. auto.
    + unfold tick. rewrite Hi. destruct (decide (i = id)) as [->|Hne].
      * rewrite lookup_singleton_eq.
        destruct (paths rv !! index rv) as [path|] eqn:E;
          cbn [intervals visiblePaths].
        -- right. left. split; [exact Hf|]. split; [exact Ha|].
           exists id, {| paths := paths rv; index := S (index rv) |}, r0.
           cbn [paths index]. rewrite insert_singleton_eq.
           apply lookup_lt_Some in E as Hlt.
           repeat split; [exact Hp | lia|].
           rewrite Hv. symmetry. now apply take_S_r.
        -- right. right. split; [exact Hf|]. split; [reflexivity|].
           rewrite delete_singleton_eq. split; [reflexivity|].
           exists r0. apply lookup_ge_None in E.
           rewrite Hv, take_ge by lia. exact Hp.
      * rewrite lookup_singleton_ne by congruence.
        right. left. split; [exact Hf|]. split; [exact Ha|].
        exists id, rv, r0. auto.
    + right. right. unfold tick. rewrite He, lookup_empty.
      split; [exact Hf|]. split; [exact Ha|]. split; [exact He|]. eauto.
Qed.

Lemma appRun_hostInv (events : list AppEvent) :
  forall a, hostInv h a -> orderly h a events -> hostInv h (appRun h a events).
Proof.
  induction events as [|e events IH]; intros a Hinv Hord; [exact Hinv|].
  destruct Hord as [Hgate Hrest]. cbn [appRun foldl].
  apply IH; [now apply appStep_hostInv | exact Hrest].
Qed.

Lemma generate_draws (r : Random) :
  draws (generate (component h) r).2 = draws r.
Proof.
  cbv [generate mbind Rand_bind randomElement Math_random mret Rand_ret].
  cbn [draws cursor].
  pose proof (allPaths_draws (component h)
                {| draws := draws r; cursor := S (S (S (cursor r))) |}) as Hd.
  destruct (allPaths (component h) _) as [all r4]. exact Hd.
Qed.

Lemma regenerate_generate (c : Component) :
  let c' := regenerate (component h) c in
  let g := generate (component h) (random c) in
  random c' = g.2
  /\ selectedGradient c' = g.1.1.1.1
  /\ tints c' = g.1.1.1.2
  /\ bgColor c' = g.1.1.2.
Proof.
  unfold regenerate.
  destruct (generate (component h) (random c)) as [[[[g t] b] batch] r].
  repeat split.
Qed.

Lemma regenerate_showsBatch (r : Random) (a : App) :
  intervals (canvas a) = ∅ ->
  draws (random (canvas a)) = draws r ->
  showsBatch h r (canvasStep h a Regenerate) (random (canvas a)) 0.
Proof.
  intros Hempty Hdraws.
  destruct (canvasStep_regenerate a) as (Ha & _ & Hc).
  destruct (regenerate_fields (component h) (canvas a)) as (Hv & Hi & Hnext & _).
  destruct (regenerate_generate (canvas a)) as (Hr & Hg & Ht & Hb).
  unfold showsBatch. rewrite Hc, Ha, Hv, Hi, Hnext, Hempty, insert_empty.
  repeat split; try assumption; try lia; try discriminate.
Qed.

Lemma appMount_batchInv (r : Random) : batchInv h r (appMount h r).
Proof.
  unfold appMount. destruct (deferredStart h) eqn:Hd.
  - split; [intros _; cbn; auto | cbn; discriminate].
  - split.
    + intros Hf. destruct (canvasStep_regenerate
        {| isAnimating := false; framePending := false;
           canvas := mount (component h) r |}) as (_ & Hf' & _).
      rewrite Hf' in Hf. discriminate Hf.
    + intros _. exists r, 0%nat.
      apply (regenerate_showsBatch r
               {| isAnimating := false; framePending := false;
                  canvas := mount (component h) r |}); reflexivity.
Qed.

Lemma tick_showsBatch (r : Random) (a : App) (i : nat) (r0 : Random) (k : nat) :
  showsBatch h r a r0 k ->
  exists k', showsBatch h r (canvasStep h a (Tick i)) r0 k'.
Proof.
  intros (Hd & Hr & Hg & Ht & Hb & Hk & Hv & Hlive & Hidle).
  destruct (canvasStep_tick a i) as (_ & Hc & Ha).
  pose proof (generate_length (component h) r0) as Hlen.
  unfold showsBatch. rewrite Hc, Ha. clear Hc Ha.
  destruct (isAnimating a) eqn:Hanim.
  - specialize (Hlive eq_refl). unfold tick. rewrite Hlive.
    destruct (decide (i = pred (nextInterval (canvas a)))) as [->|Hne].
    + rewrite lookup_singleton_eq. cbn [paths index].
      destruct ((generate (component h) r0).1.2 !! k) as [path|] eqn:E;
        cbn [random selectedGradient tints bgColor visiblePaths intervals nextInterval].
      * exists (S k). apply lookup_lt_Some in E as Hlt.
        repeat split; try assumption; try lia; try discriminate.
        -- rewrite Hv. symmetry. now apply take_S_r.
        -- intros _. now rewrite insert_singleton_eq.
      * exists k. apply lookup_ge_None in E.
        repeat split; try assumption; try lia; try discriminate.
        apply delete_singleton_eq.
    + rewrite lookup_singleton_ne by congruence.
      exists k. repeat split; try assumption; try discriminate.
      intros _. exact Hlive.
  - destruct (Hidle eq_refl) as [He Hk']. unfold tick. rewrite He, lookup_empty.
    exists k. repeat split; try assumption; try discriminate.
Qed.

Lemma appStep_batchInv (r : Random) (a : App) (e : AppEvent) :
  batchInv h r a ->
  (e = Generate -> isAnimating a = false /\ framePending a = false) ->
  batchInv h r (appStep h a e).
Proof.
  intros [Hpending Hshown] Hgate. destruct e as [| |i]; cbn [appStep].
  - destruct (framePending a) eqn:Hf; [|split; rewrite Hf; assumption].
    destruct (Hpending eq_refl) as (Ha & He & Hv & Hr).
    set (a0 := {| isAnimating := isAnimating a; framePending := false;
                  canvas := canvas a |}).
    destruct (canvasStep_regenerate a0) as (_ & Hf' & _).
    split; [rewrite Hf'; discriminate|].
    intros _. exists (random (canvas a)), 0%nat.
    apply (regenerate_showsBatch r a0); [exact He | cbn [canvas a0]; now rewrite Hr].
  - destruct (Hgate eq_refl) as [Hidle Hf].
    destruct (Hshown Hf) as (r0 & k & Hd & Hr & _ & _ & _ & _ & _ & _ & Hrest).
    destruct (Hrest Hidle) as [He _].
    destruct (canvasStep_regenerate a) as (_ & Hf' & _).
    split; [rewrite Hf', Hf; discriminate|].
    intros _. exists (random (canvas a)), 0%nat.
    apply regenerate_showsBatch; [exact He|].
    rewrite Hr, generate_draws. exact Hd.
  - destruct (canvasStep_tick a i) as (Hf & Hc & Ha).
    split.
    + rewrite Hf. intros Hp. destruct (Hpending Hp) as (Hanim & He & Hv & Hr).
      rewrite Ha, Hc. unfold tick. rewrite He, lookup_empty. auto.
    + rewrite Hf. intros Hp. destruct (Hshown Hp) as (r0 & k & Hs).
      destruct (tick_showsBatch r a i r0 k Hs) as [k' Hs']. eauto.
Qed.

Lemma appRun_batchInv (r : Random) (events : list AppEvent) :
  forall a, batchInv h r a -> orderly h a events -> batchInv h r (appRun h a events).
Proof.
  induction events as [|e events IH]; intros a Hinv Hord; [exact Hinv|].
  destruct Hord as [Hgate Hrest]. cbn [appRun foldl].
  apply IH; [now apply appStep_batchInv | exact Hrest].
Qed.

End HostFacts.

(** X17: As long as [handleGenerate] runs only while the Generate button is
    enabled and not before the first animation frame, at most one interval is
    live, and [isAnimating] is true exactly while one is. *)
Theorem host_one_interval (h : Host) (r : Random) (events : list AppEvent) :
  orderly h (appMount h r) events ->
  let a := appRun h (appMount h r) events in
  (size (intervals (canvas a)) <= 1)%nat
  /\ (isAnimating a = true <-> intervals (canvas a) <> ∅)
  /\ (isAnimating a = true -> framePending a = false).
Proof.
  intros Hord a.
  pose proof (appRun_hostInv h events _ (appMount_hostInv h r) Hord) as Hinv.
  fold a in Hinv.
  destruct Hinv as [(Hf & Ha & He & _)|[(Hf & Ha & id & rv & r0 & Hi & _)
                                        |(Hf & Ha & He & _)]].
  - rewrite He, Ha, map_size_empty. split; [lia|]. split; [|discriminate].
    split; [discriminate | congruence].
  - rewrite Hi, Ha, map_size_singleton. split; [lia|]. split; [|auto].
    split; [intros _; apply map_non_empty_singleton | reflexivity].
  - rewrite He, Ha, map_size_empty. split; [lia|]. split; [|discriminate].
    split; [discriminate | congruence].
Qed.

Lemma host_one_interval_witness :
  (size (intervals (canvas (appRun GridApp (appMount GridApp sampleRandom)
                              [Frame; Fire 1; Fire 1]))) <= 1)%nat.
Proof.
  apply (host_one_interval GridApp sampleRandom [Frame; Fire 1; Fire 1]).
  cbn [orderly]. repeat split; discriminate.
Defined.

(** X18: In a host used in that way the canvas shows nothing until the first
    animation frame, and from then on the first [k] paths of the batch that
    the latest call of [regenerate] generated, in the colour scheme drawn in
    that same call: [r0] is the random source as that call found it, a later
    part of the draws [r] that the component was mounted with, and the source
    now stands where that call left it.  While [isAnimating] is true the one
    live interval reveals that batch and has revealed [k] paths of it;
    whenever the buttons are enabled again the whole batch is shown,
    [numBalls] paths. *)
Theorem host_shows_one_batch (h : Host) (r : Random) (events : list AppEvent) :
  orderly h (appMount h r) events ->
  let a := appRun h (appMount h r) events in
  let c := canvas a in
  (framePending a = true ->
   isAnimating a = false /\ intervals c = ∅ /\ visiblePaths c = [] /\ random c = r)
  /\ (framePending a = false ->
      exists r0 k,
        let g := generate (component h) r0 in
        draws r0 = draws r
        /\ random c = g.2
        /\ selectedGradient c = g.1.1.1.1
        /\ tints c = g.1.1.1.2
        /\ bgColor c = g.1.1.2
        /\ (k <= numBalls (component h))%nat
        /\ visiblePaths c = take k g.1.2
        /\ (isAnimating a = true ->
            intervals c
            = {[ pred (nextInterval c) := {| paths := g.1.2; index := k |} ]})
        /\ (isAnimating a = false ->
            intervals c = ∅
            /\ visiblePaths c = g.1.2
            /\ length (visiblePaths c) = numBalls (component h))).
Proof.
  intros Hord a c.
  pose proof (appRun_batchInv h r events _ (appMount_batchInv h r) Hord) as [Hp Hs].
  fold a in Hp, Hs. split; [exact Hp|].
  intros Hf. destruct (Hs Hf) as (r0 & k & Hd & Hr & Hg & Ht & Hb & Hk & Hv & Hlive & Hidle).
  exists r0, k. cbv zeta. fold c in Hr, Hg, Ht, Hb, Hv, Hlive, Hidle.
  repeat split; try assumption.
  - now apply Hidle.
  - destruct (Hidle H) as [_ ->] in Hv.
    rewrite Hv, take_ge by (rewrite generate_length; lia). reflexivity.
  - destruct (Hidle H) as [_ ->] in Hv.
    rewrite Hv, take_ge by (rewrite generate_length; lia). apply generate_length.
Qed.

Lemma host_shows_one_batch_witness :
  let a := appRun PachinkoApp (appMount PachinkoApp sampleRandom) [Fire 1; Fire 1] in
  let c := canvas a in
  (framePending a = true ->
   isAnimating a = false /\ intervals c = ∅ /\ visiblePaths c = []
   /\ random c = sampleRandom)
  /\ (framePending a = false ->
      exists r0 k,
        let g := generate (component PachinkoApp) r0 in
        draws r0 = draws sampleRandom
        /\ random c = g.2
        /\ selectedGradient c = g.1.1.1.1
        /\ tints c = g.1.1.1.2
        /\ bgColor c = g.1.1.2
        /\ (k <= numBalls (component PachinkoApp))%nat
        /\ visiblePaths c = take k g.1.2
        /\ (isAnimating a = true ->
            intervals c
            = {[ pred (nextInterval c) := {| paths := g.1.2; index := k |} ]})
        /\ (isAnimating a = false ->
            intervals c = ∅
            /\ visiblePaths c = g.1.2
            /\ length (visiblePaths c) = numBalls (component PachinkoApp))).
Proof.
  apply (host_shows_one_batch PachinkoApp sampleRandom [Fire 1; Fire 1]).
  cbn [orderly]. repeat split; discriminate.
Defined.

(** X19: The gate does not cover the time before the first animation frame of a
    canvas that starts as [GridCanvas] does: a click on the enabled Generate
    button followed by that frame leaves two intervals live. *)
Theorem generate_before_first_frame (h : Host) (r : Random) :
  deferredStart h = true ->
  let a := appRun h (appMount h r) [Generate; Frame] in
  gated h (appMount h r) [Generate; Frame]
  /\ size (intervals (canvas a)) = 2%nat.
Proof.
  intros Hd a. subst a. unfold appMount. rewrite Hd.
  set (a0 := {| isAnimating := false; framePending := true;
                canvas := mount (component h) r |}).
  split.
  - cbn [gated]. split; [intros _; reflexivity|].
    split; [intros H; discriminate H | exact I].
  - cbn [appRun foldl appStep].
    destruct (canvasStep_regenerate h a0) as (_ & Hf & Hc).
    rewrite Hf. cbn [framePending a0].
    set (a1 := {| isAnimating := _; framePending := false; canvas := _ |}).
    destruct (canvasStep_regenerate h a1) as (_ & _ & Hc2).
    rewrite Hc2. subst a1. cbn [canvas]. rewrite Hc. cbn [canvas a0].
    set (c1 := regenerate (component h) (mount (component h) r)).
    assert (Hfresh : fresh c1).
    { apply regenerate_fresh. intros i [rv Hi]. cbn in Hi.
      rewrite lookup_empty in Hi. discriminate. }
    destruct (regenerate_fields (component h) c1) as (_ & -> & _).
    rewrite map_size_insert_None by now apply fresh_next.
    subst c1.
    destruct (regenerate_fields (component h) (mount (component h) r)) as (_ & -> & _).
    cbn [intervals mount]. rewrite insert_empty, map_size_singleton. reflexivity.
Qed.

Lemma generate_before_first_frame_witness :
  size (intervals (canvas (appRun GridApp (appMount GridApp sampleRandom)
                             [Generate; Frame]))) = 2%nat.
Proof.
  apply (generate_before_first_frame GridApp sampleRandom). reflexivity.
Defined.

(** X20: A host whose canvas starts in its mount effect, as [PachinkoCanvas]
    does, has no such window: there the button's gate alone keeps the
    generations apart. *)
Theorem immediate_start_gate (h : Host) (r : Random) (events : list AppEvent) :
  deferredStart h = false ->
  gated h (appMount h r) events ->
  let a := appRun h (appMount h r) events in
  (size (intervals (canvas a)) <= 1)%nat
  /\ (isAnimating a = true <-> intervals (canvas a) <> ∅).
Proof.
  intros Hd Hg a.
  assert (Hstep : forall a e, framePending a = false ->
                              framePending (appStep h a e) = false).
  { intros a0 e Ha. destruct e; cbn [appStep]; [now rewrite Ha | exact Ha | exact Ha]. }
  assert (Hgo : forall evs a, framePending a = false -> gated h a evs -> orderly h a evs).
  { induction evs as [|e evs IH]; intros a0 Ha [Hgate Hrest] || intros a0 Ha _; [exact I|].
    split; [intros He; split; [now apply Hgate | exact Ha]|].
    apply IH; [now apply Hstep | exact Hrest]. }
  assert (Hmount : framePending (appMount h r) = false).
  { unfold appMount. rewrite Hd. reflexivity. }
  pose proof (appRun_hostInv h events _ (appMount_hostInv h r) (Hgo _ _ Hmount Hg))
    as Hinv.
  fold a in Hinv.
  destruct Hinv as [(_ & Ha & He & _)|[(_ & Ha & id & rv & r0 & Hi & _)|(_ & Ha & He & _)]].
  - rewrite He, Ha, map_size_empty. split; [lia|]. split; [discriminate | congruence].
  - rewrite Hi, Ha, map_size_singleton. split; [lia|].
    split; [intros _; apply map_non_empty_singleton | reflexivity].
  - rewrite He, Ha, map_size_empty. split; [lia|]. split; [discriminate | congruence].
Qed.

Lemma immediate_start_gate_witness :
  (size (intervals (canvas (appRun PachinkoApp (appMount PachinkoApp sampleRandom)
                              [Fire 1; Fire 2; Fire 1]))) <= 1)%nat.
Proof.
  apply (immediate_start_gate PachinkoApp sampleRandom [Fire 1; Fire 2; Fire 1]).
  - reflexivity.
  - cbn [gated]. repeat split; discriminate.
Defined.

(** * The collect button *)

(** ** [waitWithRetry] *)

Section RetryFacts.

Variable Receipt : Type.
Variable client : nat -> option Receipt.

Lemma waitLoop_first_success (k : nat) :
  forall iterations i e receipt,
    (k < iterations)%nat ->
    (i + iterations = 11)%nat ->
    (forall j, (j < k)%nat -> client (Retry.calls e + j) = None) ->
    client (Retry.calls e + k) = Some receipt ->
    Retry.waitLoop Receipt client iterations i e
    = (Retry.Returned receipt,
       {| Retry.calls := S (Retry.calls e + k);
          Retry.waited := (Retry.waited e + 1500 * k)%nat |}).
Proof.
  induction k as [|k IH]; intros iterations i e receipt Hk Hi Hfail Hok;
    (destruct iterations as [|iterations]; [lia|]); cbn [Retry.waitLoop].
  - rewrite Nat.add_0_r in Hok. rewrite Hok. do 2 f_equal; lia.
  - rewrite <- (Nat.add_0_r (Retry.calls e)), (Hfail 0%nat) by lia.
    destruct (Nat.eqb_spec i Retry.maxRetries) as [->|_]; [unfold Retry.maxRetries in Hi; lia|].
    rewrite (IH iterations (S i) _ receipt); cbn [Retry.calls Retry.waited];
      [unfold Retry.delay; do 2 f_equal; lia | lia | lia | |].
    + intros j Hj. rewrite Nat.add_0_r, Nat.add_succ_comm. apply Hfail. lia.
    + rewrite Nat.add_0_r, Nat.add_succ_comm. exact Hok.
Qed.

Lemma waitLoop_timeout :
  forall iterations i e,
    (1 <= iterations)%nat ->
    (i + iterations = 11)%nat ->
    (forall j, (j < iterations)%nat -> client (Retry.calls e + j) = None) ->
    Retry.waitLoop Receipt client iterations i e
    = (Retry.Thrown "Transaction confirmation timeout",
       {| Retry.calls := (Retry.calls e + iterations)%nat;
          Retry.waited := (Retry.waited e + 1500 * (iterations - 1))%nat |}).
Proof.
  induction iterations as [|iterations IH]; intros i e H1 Hi Hfail; [lia|].
  cbn [Retry.waitLoop].
  rewrite <- (Nat.add_0_r (Retry.calls e)), (Hfail 0%nat) by lia.
  destruct (Nat.eqb_spec i Retry.maxRetries) as [->|Hne].
  - unfold Retry.maxRetries in Hi. assert (iterations = 0)%nat as -> by lia.
    do 2 f_equal; lia.
  - unfold Retry.maxRetries in Hne.
    rewrite IH; cbn [Retry.calls Retry.waited];
      [unfold Retry.delay; do 2 f_equal; lia | lia | lia |].
    intros j Hj. rewrite Nat.add_0_r, Nat.add_succ_comm. apply Hfail. lia.
Qed.

End RetryFacts.

Lemma waitWithRetry_first_success_aux
    (Receipt : Type) (client : nat -> option Receipt) (k : nat) (receipt : Receipt) :
  (k < 10)%nat ->
  (forall j, (j < k)%nat -> client j = None) ->
  client k = Some receipt ->
  Retry.waitWithRetry Receipt client
  = (Retry.Returned receipt, {| Retry.calls := S k; Retry.waited := (1500 * k)%nat |}).
Proof.
  intros Hk Hfail Hok. unfold Retry.waitWithRetry.
  rewrite (waitLoop_first_success Receipt client k _ _ _ receipt);
    cbn [Retry.calls Retry.waited]; [reflexivity | exact Hk | reflexivity | | exact Hok].
  exact Hfail.
Qed.

(** X21: When the first [k] calls of the client fail and the next one, among the
    first ten, succeeds, [waitWithRetry] returns that receipt after [k + 1]
    calls and [k] pauses of 1500 ms. *)
Theorem waitWithRetry_first_success
    (Receipt : Type) (client : nat -> option Receipt) (k : nat) (receipt : Receipt) :
  (k < 10)%nat ->
  (forall j, (j < k)%nat -> client j = None) ->
  client k = Some receipt ->
  (Retry.waitWithRetry Receipt client).1 = Retry.Returned receipt
  /\ Retry.calls (Retry.waitWithRetry Receipt client).2 = S k
  /\ Retry.waited (Retry.waitWithRetry Receipt client).2 = (1500 * k)%nat.
Proof.
  intros Hk Hfail Hok.
  rewrite (waitWithRetry_first_success_aux Receipt client k receipt Hk Hfail Hok).
  repeat split.
Qed.

Lemma waitWithRetry_first_success_witness :
  (Retry.waitWithRetry unit (fun j => if (j <? 3)%nat then None else Some tt)).1
  = Retry.Returned tt
  /\ Retry.calls (Retry.waitWithRetry unit
                    (fun j => if (j <? 3)%nat then None else Some tt)).2 = 4%nat
  /\ Retry.waited (Retry.waitWithRetry unit
                     (fun j => if (j <? 3)%nat then None else Some tt)).2
     = (1500 * 3)%nat.
Proof.
  apply (waitWithRetry_first_success unit
           (fun j => if (j <? 3)%nat then None else Some tt) 3%nat tt).
  - lia.
  - intros j Hj. destruct (Nat.ltb_spec j 3); [reflexivity | lia].
  - reflexivity.
Defined.

(** X22: [waitWithRetry] never calls the client more than ten times, pauses
    1500 ms between two calls and not after the last one, never runs off the
    end of its loop, and throws its timeout error exactly when the first ten
    calls all fail. *)
Theorem waitWithRetry_outcome (Receipt : Type) (client : nat -> option Receipt) :
  let result := Retry.waitWithRetry Receipt client in
  result.1 <> Retry.Fallthrough
  /\ (1 <= Retry.calls result.2 <= 10)%nat
  /\ Retry.waited result.2 = (1500 * (Retry.calls result.2 - 1))%nat
  /\ ((forall j, (j < 10)%nat -> client j = None)
      <-> result = (Retry.Thrown "Transaction confirmation timeout",
                    {| Retry.calls := 10; Retry.waited := (1500 * 9)%nat |}))
  /\ (forall message, result.1 = Retry.Thrown message ->
                      forall j, (j < 10)%nat -> client j = None).
Proof.
  intros result.
  assert (Hcases : (forall j, (j < 10)%nat -> client j = None)
                   \/ exists k receipt, (k < 10)%nat
                         /\ (forall j, (j < k)%nat -> client j = None)
                         /\ client k = Some receipt).
  { assert (Hsearch : forall n, (forall j, (j < n)%nat -> client j = None)
                        \/ exists k receipt, (k < n)%nat
                              /\ (forall j, (j < k)%nat -> client j = None)
                              /\ client k = Some receipt).
    { induction n as [|n [IH|(k & receipt & Hk & Hf & Hs)]].
      - left. intros j Hj. lia.
      - destruct (client n) as [receipt|] eqn:En.
        + right. exists n, receipt. auto.
        + left. intros j Hj. destruct (decide (j = n)) as [->|]; [exact En | apply IH; lia].
      - right. exists k, receipt. split; [lia | auto]. }
    apply Hsearch. }
  destruct Hcases as [Hall|(k & receipt & Hk & Hf & Hs)].
  - assert (Hr : result = (Retry.Thrown "Transaction confirmation timeout",
                           {| Retry.calls := 10; Retry.waited := (1500 * 9)%nat |})).
    { subst result. unfold Retry.waitWithRetry.
      rewrite waitLoop_timeout; [reflexivity | unfold Retry.maxRetries; lia | reflexivity|].
      exact Hall. }
    rewrite Hr. cbn [fst snd Retry.calls Retry.waited].
    repeat split; try discriminate; try lia; auto.
  - pose proof (waitWithRetry_first_success_aux Receipt client k receipt Hk Hf Hs) as Hr.
    fold result in Hr. rewrite Hr. cbn [fst snd Retry.calls Retry.waited].
    split; [discriminate|]. split; [lia|]. split; [lia|]. split.
    + split; [|discriminate]. intros Hall. rewrite Hall in Hs by exact Hk. discriminate.
    + intros message H. discriminate H.
Qed.

(** ** The progress bar *)

Lemma progressOK_all :
  forallb Mint.progressOK (map Z.of_nat (seq 0 (Z.to_nat 10001))) = true.
Proof. vm_compute. reflexivity. Qed.

(** X23: For every count of minted artworks from 0 to 10000 the progress bar
    shows a whole percentage between 0 and 100; it shows 100 exactly from
    1000 on, which is exactly when the total alone reaches the minting limit;
    below 1000 it shows a tenth of the count rounded down, except at 290, 570
    and 580, where binary64 rounding makes it one less. *)
Theorem mintProgress_spec (n : Z) :
  0 <= n <= 10000 ->
  exists q,
    Mint.mintProgress (Mint.total (Some n)) = Some q
    /\ 0 <= q <= 100
    /\ (q = 100 <-> 1000 <= n)
    /\ (q = 100 <-> Mint.mintLimitReached (Mint.total (Some n)) (Mint.total None) = true)
    /\ (n < 1000 ->
        (q = n / 10 \/ q = n / 10 - 1)
        /\ (q = n / 10 - 1 <-> n = 290 \/ n = 570 \/ n = 580)).
Proof.
  intros Hn.
  assert (Hin : In n (map Z.of_nat (seq 0 (Z.to_nat 10001)))).
  { apply in_map_iff. exists (Z.to_nat n). split; [lia|]. apply in_seq. lia. }
  pose proof (proj1 (forallb_forall _ _) progressOK_all n Hin) as Hok.
  unfold Mint.progressOK in Hok.
  destruct (Mint.mintProgress (Mint.total (Some n))) as [q|]; [|discriminate Hok].
  exists q. split; [reflexivity|].
  apply andb_prop in Hok as [Hok Hlimit].
  apply andb_prop in Hok as [Hok Hbelow].
  apply andb_prop in Hok as [Hok Hfull].
  apply andb_prop in Hok as [Hq0 Hq1].
  apply Z.leb_le in Hq0, Hq1. apply Bool.eqb_prop in Hfull, Hlimit.
  split; [lia|]. split; [|split].
  - rewrite <- Z.eqb_eq, Hfull. apply Z.leb_le.
  - rewrite <- Z.eqb_eq, Hlimit. reflexivity.
  - intros Hsmall. apply orb_prop in Hbelow as [Hbig|Hbelow];
      [apply Z.leb_le in Hbig; lia|].
    apply andb_prop in Hbelow as [Hnear Hodd]. apply Bool.eqb_prop in Hodd.
    split.
    + apply orb_prop in Hnear as [H|H]; apply Z.eqb_eq in H; auto.
    + rewrite <- Z.eqb_eq, Hodd, !orb_true_iff, !Z.eqb_eq. tauto.
Qed.

Lemma mintProgress_spec_witness :
  exists q,
    Mint.mintProgress (Mint.total (Some 570)) = Some q
    /\ 0 <= q <= 100
    /\ (q = 100 <-> 1000 <= 570)
    /\ (q = 100 <-> Mint.mintLimitReached (Mint.total (Some 570)) (Mint.total None) = true)
    /\ (570 < 1000 ->
        (q = 570 / 10 \/ q = 570 / 10 - 1)
        /\ (q = 570 / 10 - 1 <-> 570 = 290 \/ 570 = 570 \/ 570 = 580)).
Proof. apply (mintProgress_spec 570). lia. Defined.
